(** * Composite loss and training loop of the CoQA question-answering trainer

    A shallow embedding of [src/losses.py] and of the training step of
    [src/pipeline.py].

    Numeric model.  Tensors of floats are lists of extended rationals
    [Num.ext]: exact rational arithmetic together with the three special
    values of IEEE arithmetic ([+inf], [-inf], [NaN]) that the source tests
    for and guards against.  Rounding, overflow and signed zeros are not
    modelled.  Library kernels that need transcendental functions
    ([F.cross_entropy], [F.binary_cross_entropy_with_logits], [torch.exp],
    [**]) are parameters of the development.

    Shape model.  A tensor of rank two is a list of rows.  Operations that
    combine two tensors raise [RuntimeError] unless the operands are aligned row
    by row; broadcasting between operands of different shapes is not
    modelled. *)

From Stdlib Require Import List ZArith QArith Qround Bool String Lia Lqa Qfield.
From Stdlib Require Import Permutation Ascii.
Import ListNotations.

Local Open Scope Q_scope.

(* ================================================================== *)
(** * Part I: definitions *)
(* ================================================================== *)

(** ** Extended rationals *)

Module Num.

Inductive ext : Type :=
| Fin (q : Q)
| PInf
| NInf
| NaN.

Definition finite (x : ext) : Prop :=
  match x with Fin _ => True | _ => False end.

(** Equality of values, up to the representation of the rational. *)
Definition eqv (x y : ext) : Prop :=
  match x, y with
  | Fin a, Fin b => a == b
  | PInf, PInf | NInf, NInf | NaN, NaN => True
  | _, _ => False
  end.

Definition of_Z (z : Z) : ext := Fin (inject_Z z).
Definition of_nat (n : nat) : ext := of_Z (Z.of_nat n).

Definition eopp (x : ext) : ext :=
  match x with
  | Fin a => Fin (- a)
  | PInf => NInf
  | NInf => PInf
  | NaN => NaN
  end.

Definition eadd (x y : ext) : ext :=
  match x, y with
  | NaN, _ | _, NaN => NaN
  | Fin a, Fin b => Fin (a + b)
  | PInf, NInf | NInf, PInf => NaN
  | PInf, _ | _, PInf => PInf
  | NInf, _ | _, NInf => NInf
  end.

Definition esub (x y : ext) : ext := eadd x (eopp y).

(** The infinity whose sign is the sign of [q]; [NaN] at zero. *)
Definition signed_inf (q : Q) : ext :=
  match q ?= 0 with
  | Gt => PInf
  | Lt => NInf
  | Eq => NaN
  end.

Definition emul (x y : ext) : ext :=
  match x, y with
  | NaN, _ | _, NaN => NaN
  | Fin a, Fin b => Fin (a * b)
  | Fin a, PInf | PInf, Fin a => signed_inf a
  | Fin a, NInf | NInf, Fin a => signed_inf (- a)
  | PInf, PInf | NInf, NInf => PInf
  | PInf, NInf | NInf, PInf => NInf
  end.

(** IEEE division: a finite non-zero value over zero is an infinity, zero
    over zero and infinity over infinity are [NaN]. *)
Definition ediv (x y : ext) : ext :=
  match x, y with
  | NaN, _ | _, NaN => NaN
  | Fin a, Fin b => if Qeq_bool b 0 then signed_inf a else Fin (a / b)
  | Fin _, PInf | Fin _, NInf => Fin 0
  | PInf, Fin b => if Qle_bool 0 b then PInf else NInf
  | NInf, Fin b => if Qle_bool 0 b then NInf else PInf
  | PInf, PInf | PInf, NInf | NInf, PInf | NInf, NInf => NaN
  end.

(** Comparisons; every comparison with [NaN] is false, but [!=]. *)
Definition ele (x y : ext) : bool :=
  match x, y with
  | NaN, _ | _, NaN => false
  | Fin a, Fin b => Qle_bool a b
  | NInf, _ | _, PInf => true
  | PInf, _ | _, NInf => false
  end.

Definition eeqb (x y : ext) : bool :=
  match x, y with
  | Fin a, Fin b => Qeq_bool a b
  | PInf, PInf | NInf, NInf => true
  | _, _ => false
  end.

Definition eneqb (x y : ext) : bool := negb (eeqb x y).

(** [torch.clamp(x, min=m)]: the larger of [x] and [m]; [NaN] stays. *)
Definition clamp_min (m x : ext) : ext :=
  match x with
  | NaN => NaN
  | _ => if ele m x then x else m
  end.

End Num.

Import Num.

(** ** Errors raised by the source *)

Inductive error : Type :=
| ValueError (msg : string)
| RuntimeError
| IndexError
| ZeroDivisionError
| OverflowError
| TypeError
| AttributeError
| AssertionError (msg : string).

Inductive result (A : Type) : Type :=
| Ok (a : A)
| Raise (e : error).

Arguments Ok {A} a.
Arguments Raise {A} e.

Definition bind {A B : Type} (c : result A) (k : A -> result B) : result B :=
  match c with
  | Ok a => k a
  | Raise e => Raise e
  end.

Notation "x <- c ;; k" := (bind c (fun x => k))
  (at level 61, c at next level, right associativity).

Definition returns {A : Type} (c : result A) : Prop :=
  match c with Ok _ => True | Raise _ => False end.

(** ** Tensors *)

Module Torch.

Abbreviation vec := (list ext).
Abbreviation mat := (list (list ext)).

(** A reduced loss: a tensor of rank one, or a tensor of rank zero. *)
Inductive tensor : Type :=
| Tensor (v : vec)
| Scalar (x : ext).

Fixpoint map2 {A B C : Type} (f : A -> B -> C) (l1 : list A) (l2 : list B)
  : list C :=
  match l1, l2 with
  | a :: l1, b :: l2 => f a b :: map2 f l1 l2
  | _, _ => []
  end.

Fixpoint map3 {A B C D : Type} (f : A -> B -> C -> D)
  (l1 : list A) (l2 : list B) (l3 : list C) : list D :=
  match l1, l2, l3 with
  | a :: l1, b :: l2, c :: l3 => f a b c :: map3 f l1 l2 l3
  | _, _, _ => []
  end.

(** Two tensors of rank one have the same size. *)
Definition same_size {A B : Type} (l1 : list A) (l2 : list B) : bool :=
  (List.length l1 =? List.length l2)%nat.

(** Two tensors of rank two have the same number of rows, and rows of the
    same size. *)
Fixpoint aligned {A B : Type} (m1 : list (list A)) (m2 : list (list B))
  : bool :=
  match m1, m2 with
  | [], [] => true
  | r1 :: m1, r2 :: m2 => same_size r1 r2 && aligned m1 m2
  | _, _ => false
  end.

(** [torch.sum] of a tensor of rank one. *)
Definition vsum (v : vec) : ext := fold_right eadd (Fin 0) v.

(** [torch.mean] of a tensor of rank one. *)
Definition vmean (v : vec) : ext := ediv (vsum v) (of_nat (List.length v)).

(** [t[mask]] for a boolean mask over the leading dimension. *)
Fixpoint select {A : Type} (mask : list bool) (rows : list A) : list A :=
  match mask, rows with
  | b :: mask, r :: rows => if b then r :: select mask rows else select mask rows
  | _, _ => []
  end.

Definition index_mask {A : Type} (rows : list A) (mask : list bool)
  : result (list A) :=
  if same_size mask rows then Ok (select mask rows) else Raise IndexError.

(** [a * b] on aligned tensors of rank two. *)
Definition mat_mul (a b : mat) : result mat :=
  if aligned a b then Ok (map2 (map2 emul) a b) else Raise RuntimeError.

(** Equality of tensors and of results, up to the representation of the
    rationals. *)
Definition tensor_eqv (a b : tensor) : Prop :=
  match a, b with
  | Tensor u, Tensor v => Forall2 eqv u v
  | Scalar x, Scalar y => eqv x y
  | _, _ => False
  end.

Definition result_eqv (a b : result tensor) : Prop :=
  match a, b with
  | Ok x, Ok y => tensor_eqv x y
  | Raise e, Raise e' => e = e'
  | _, _ => False
  end.

Definition tensor_finite (a : tensor) : Prop :=
  match a with
  | Tensor v => Forall finite v
  | Scalar x => finite x
  end.

(** [row'] is [row] with [p] more positions at its end. *)
Definition extends_by {A : Type} (p : nat) (row row' : list A) : Prop :=
  exists pad, List.length pad = p /\ row' = row ++ pad.


(** [l] with [x] at index [i]. *)
Fixpoint set_at {A : Type} (i : nat) (x : A) (l : list A) : list A :=
  match l, i with
  | [], _ => []
  | _ :: l, O => x :: l
  | a :: l, S i => a :: set_at i x l
  end.

(** [a & b] on boolean tensors of rank one. *)
Definition vec_and (a b : list bool) : result (list bool) :=
  if same_size a b then Ok (map2 andb a b) else Raise RuntimeError.

End Torch.

Import Torch.

(** ** Library kernels

    The element-wise kernels of the tensor library that the losses call.
    [cross_entropy_token x t] is the negative log-likelihood of class [t]
    under the soft-max of the scores [x]; [bce_with_logits_token x y] is the
    unweighted binary cross-entropy of the logit [x] against the target [y];
    [torch_exp] and [torch_pow] are [torch.exp] and [**]. *)

Class Kernels : Type := {
  cross_entropy_token : vec -> Z -> ext;
  bce_with_logits_token : ext -> ext -> ext;
  torch_exp : ext -> ext;
  torch_pow : ext -> ext -> ext
}.

(** ** losses.py *)

Module Losses.

Definition _EPSILON : ext := Fin (1 # 10000000).

(** The default [ignore_index] of [F.cross_entropy]. *)
Definition IGNORE_INDEX : Z := (-100)%Z.

Definition apply_reduction (input : vec) (reduction : string) : result tensor :=
  if String.eqb reduction "none" then Ok (Tensor input)
  else
    let input := if (List.length input =? 0)%nat then [Fin 0] else input in
    if String.eqb reduction "mean" then Ok (Scalar (vmean input))
    else if String.eqb reduction "sum" then Ok (Scalar (vsum input))
    else Raise (ValueError
           "Invalid reduction. Supported values are 'none', 'mean' and 'sum'.").

Section WithKernels.

Context {K : Kernels}.

(** [F.cross_entropy(..., reduction="none")] at one position: a target equal
    to the ignore index has loss zero. *)
Definition cross_entropy_at (input : vec) (target : Z) : ext :=
  if (target =? IGNORE_INDEX)%Z then Fin 0 else cross_entropy_token input target.

(** [F.cross_entropy] on scores [batch x classes] and targets [batch]. *)
Definition cross_entropy (input : mat) (target : list Z) : result vec :=
  if same_size input target then Ok (map2 cross_entropy_at input target)
  else Raise RuntimeError.

(** [F.cross_entropy] on the transposed logits: the source swaps the sequence
    and vocabulary dimensions of [logits] so that the classes sit on
    dimension one, hence the kernel sees, at every position of every
    sequence, the vocabulary scores of that position. *)
Definition cross_entropy_seq (logits : list (list vec)) (labels : list (list Z))
  : result mat :=
  if aligned logits labels then Ok (map2 (map2 cross_entropy_at) logits labels)
  else Raise RuntimeError.

(** [F.binary_cross_entropy_with_logits(input, target, weight,
    reduction="none")]. *)
Definition binary_cross_entropy_with_logits (input target weight : mat)
  : result mat :=
  if aligned input target && aligned target weight then
    Ok (map3 (map3 (fun x y w => emul (bce_with_logits_token x y) w))
          input target weight)
  else Raise RuntimeError.

(** [weight[target.long()]]; a negative index counts from the end. *)
Definition gather (weight : vec) (target : list Z) : result vec :=
  fold_right
    (fun t acc =>
       rest <- acc ;;
       let n := Z.of_nat (List.length weight) in
       let i := if (t <? 0)%Z then (t + n)%Z else t in
       if ((0 <=? i) && (i <? n))%Z then
         match nth_error weight (Z.to_nat i) with
         | Some w => Ok (w :: rest)
         | None => Raise IndexError
         end
       else Raise IndexError)
    (Ok []) target.

Definition categorical_focal_loss_with_logits
  (input : mat) (target : list Z) (weight : option vec)
  (alpha gamma : ext) (reduction : string) : result tensor :=
  ce_loss <- cross_entropy input target ;;
  let pt := map (fun c => torch_exp (eopp c)) ce_loss in
  let loss :=
    map2 (fun p c => emul (emul alpha (torch_pow (esub (Fin 1) p) gamma)) c)
      pt ce_loss in
  loss <- match weight with
          | Some weight =>
              weight <- gather weight target ;;
              Ok (map2 emul loss weight)
          | None => Ok loss
          end ;;
  apply_reduction loss reduction.

(** Number of targets of a sequence that are not the ignore value. *)
Definition n_tokens (labels : list Z) : ext :=
  of_nat (List.length (filter (fun t => negb (t =? IGNORE_INDEX)%Z) labels)).

(** The loss of one example of [generative_loss]: the summed token losses
    over the clamped number of scored tokens. *)
Definition generative_sample (logits : list vec) (labels : list Z) : ext :=
  ediv (vsum (map2 cross_entropy_at logits labels))
       (clamp_min _EPSILON (n_tokens labels)).

(** The per-example losses of [generative_loss], before the reduction.  The
    token count is an integer tensor; clamping it with a float bound promotes
    it to float. *)
Definition generative_per_sample (loss : mat) (labels : list (list Z)) : vec :=
  let n_tokens_per_sample := map n_tokens labels in
  let n_tokens_per_sample := map (clamp_min _EPSILON) n_tokens_per_sample in
  map2 (fun l n => ediv (vsum l) n) loss n_tokens_per_sample.

Definition generative_loss
  (logits : list (list vec)) (labels : list (list Z))
  (reduction : string) (mask : option (list bool)) : result tensor :=
  logits_labels <-
    match mask with
    | Some mask =>
        logits <- index_mask logits mask ;;
        labels <- index_mask labels mask ;;
        Ok (logits, labels)
    | None => Ok (logits, labels)
    end ;;
  let logits := fst logits_labels in
  let labels := snd logits_labels in
  loss <- cross_entropy_seq logits labels ;;
  let loss := generative_per_sample loss labels in
  apply_reduction loss reduction.

(** The weights of one sequence of [rationale_loss]: the sums of the source
    keep the sequence dimension and are taken row by row. *)
Definition rationale_weights (labels passage_mask : vec) : vec :=
  let totals := vsum passage_mask in
  let positives := vsum labels in
  let negatives := esub totals positives in
  let totals := clamp_min _EPSILON totals in
  let weights :=
    map (fun l => if eeqb l (Fin 1) then ediv totals positives
                  else ediv totals negatives) labels in
  let weights := map (fun w => if eneqb w PInf then w else Fin 0) weights in
  let weights := map2 emul weights passage_mask in
  let normalize_factor := clamp_min _EPSILON (vsum weights) in
  map (fun w => ediv w normalize_factor) weights.

(** [rationale_lengths <= max_rationale_length], after the labels were
    multiplied by the passage mask. *)
Definition valid_rationale (max_rationale_length : Z) (labels : vec) : bool :=
  ele (vsum labels) (of_Z max_rationale_length).

Definition rationale_loss
  (logits labels passage_mask : mat) (max_rationale_length : Z)
  (reduction : string) (mask : option (list bool)) : result tensor :=
  labels <- mat_mul labels passage_mask ;;
  let valid_rationales := map (valid_rationale max_rationale_length) labels in
  valid_rationales <-
    match mask with
    | Some mask => vec_and valid_rationales mask
    | None => Ok valid_rationales
    end ;;
  labels <- index_mask labels valid_rationales ;;
  passage_mask <- index_mask passage_mask valid_rationales ;;
  logits <- index_mask logits valid_rationales ;;
  let weights := map2 rationale_weights labels passage_mask in
  per_token_loss <- binary_cross_entropy_with_logits logits labels weights ;;
  let loss := map vsum per_token_loss in
  apply_reduction loss reduction.

(** The loss of one example of [rationale_loss]: with the labels zeroed
    outside the passage, the weighted token losses summed over the
    sequence. *)
Definition rationale_sample (logits labels passage_mask : vec) : ext :=
  let labels := map2 emul labels passage_mask in
  let weights := rationale_weights labels passage_mask in
  vsum (map3 (fun x y w => emul (bce_with_logits_token x y) w)
          logits labels weights).

(** The examples that [rationale_loss] keeps: those whose rationale is not
    longer than the threshold and, with a mask, that the mask selects. *)
Definition surviving
  (labels passage_mask : mat) (max_rationale_length : Z)
  (mask : option (list bool)) : list bool :=
  let valid_rationales :=
    map2 (fun l p => valid_rationale max_rationale_length (map2 emul l p))
      labels passage_mask in
  match mask with
  | Some mask => map2 andb valid_rationales mask
  | None => valid_rationales
  end.







(** The shapes that [rationale_loss] needs. *)
Definition rationale_shapes_mask
  (labels : mat) (mask : option (list bool)) : bool :=
  match mask with
  | Some mask => same_size mask labels
  | None => true
  end.

Definition rationale_shapes
  (logits labels passage_mask : mat) (mask : option (list bool)) : bool :=
  aligned labels passage_mask && aligned logits labels
  && rationale_shapes_mask labels mask.

Definition yes_no_gen_loss
  (logits : mat) (labels : list Z) (weight : option vec)
  (reduction : string) (mask : option (list bool)) : result tensor :=
  logits_labels <-
    match mask with
    | Some mask =>
        logits <- index_mask logits mask ;;
        labels <- index_mask labels mask ;;
        Ok (logits, labels)
    | None => Ok (logits, labels)
    end ;;
  categorical_focal_loss_with_logits
    (fst logits_labels) (snd logits_labels) weight (Fin 1) (Fin 2) reduction.

End WithKernels.

End Losses.

(** ** Batches, model outputs and the loss objects

    The dictionaries [outputs] and [targets] are records of the keys that the
    losses read; a missing key is not modelled.  The flag [yes_no] is held as
    the boolean tensor [targets["yes_no"].bool()]. *)

Record Outputs : Type := {
  logits : list (list vec);
  encoder_rationale_logits : mat;
  encoder_yng_logits : mat;
  rationale_logits : mat;
  yng_logits : mat
}.

Record Targets : Type := {
  labels : list (list Z);
  rationale_labels : mat;
  passage_mask : mat;
  yng_label : list Z;
  yes_no : list bool
}.

Module LossObjects.

Import Losses.

Record EncoderDecoderGenerativeLoss : Type := {
  gen_reduction : string
}.

Record EncoderDecoderRationaleLoss : Type := {
  rat_max_rationale_length : Z;
  rat_reduction : string
}.


Record EncoderDecoderYNGLoss : Type := {
  yng_weight : option vec;
  yng_reduction : string
}.

Record EncoderDecoderLoss : Type := {
  yng_loss_weight : ext;
  rationale_loss_weight : ext;
  generative_loss_weight : ext;
  yes_no_gen_loss_fn : EncoderDecoderYNGLoss;
  rationale_loss_fn : EncoderDecoderRationaleLoss;
  generative_loss_fn : EncoderDecoderGenerativeLoss
}.

(** The constructors only store their arguments. *)
Definition EncoderDecoderGenerativeLoss_init (reduction : string)
  : result EncoderDecoderGenerativeLoss :=
  Ok {| gen_reduction := reduction |}.

Definition EncoderDecoderRationaleLoss_init
  (max_rationale_length : Z) (reduction : string)
  : result EncoderDecoderRationaleLoss :=
  Ok {| rat_max_rationale_length := max_rationale_length;
        rat_reduction := reduction |}.


Definition EncoderDecoderYNGLoss_init
  (weight : option vec) (reduction : string) : result EncoderDecoderYNGLoss :=
  Ok {| yng_weight := weight; yng_reduction := reduction |}.

(** The sub-losses are built with their default reduction, ["mean"], and the
    classification loss without class weights. *)
Definition EncoderDecoderLoss_init
  (max_rationale_length : Z)
  (yng_loss_weight rationale_loss_weight generative_loss_weight : ext)
  : result EncoderDecoderLoss :=
  yng <- EncoderDecoderYNGLoss_init None "mean" ;;
  rat <- EncoderDecoderRationaleLoss_init max_rationale_length "mean" ;;
  gen <- EncoderDecoderGenerativeLoss_init "mean" ;;
  Ok {| yng_loss_weight := yng_loss_weight;
        rationale_loss_weight := rationale_loss_weight;
        generative_loss_weight := generative_loss_weight;
        yes_no_gen_loss_fn := yng;
        rationale_loss_fn := rat;
        generative_loss_fn := gen |}.

(** Arithmetic of a Python float with a tensor, and of two tensors. *)
Definition tscale (w : ext) (t : tensor) : tensor :=
  match t with
  | Scalar x => Scalar (emul w x)
  | Tensor v => Tensor (map (emul w) v)
  end.

Definition tadd (a b : tensor) : result tensor :=
  match a, b with
  | Scalar x, Scalar y => Ok (Scalar (eadd x y))
  | Scalar x, Tensor v => Ok (Tensor (map (eadd x) v))
  | Tensor v, Scalar y => Ok (Tensor (map (fun x => eadd x y) v))
  | Tensor u, Tensor v =>
      if same_size u v then Ok (Tensor (map2 eadd u v)) else Raise RuntimeError
  end.

(** [t.item()]. *)
Definition item (t : tensor) : result ext :=
  match t with
  | Scalar x => Ok x
  | Tensor [x] => Ok x
  | Tensor _ => Raise RuntimeError
  end.

Section WithKernels.

Context {K : Kernels}.

Definition EncoderDecoderGenerativeLoss_call
  (self : EncoderDecoderGenerativeLoss) (outputs : Outputs) (targets : Targets)
  (mask : option (list bool)) : result tensor :=
  generative_loss (logits outputs) (labels targets) (gen_reduction self) mask.

Definition EncoderDecoderRationaleLoss_call
  (self : EncoderDecoderRationaleLoss) (outputs : Outputs) (targets : Targets)
  (mask : option (list bool)) : result tensor :=
  rationale_loss (encoder_rationale_logits outputs) (rationale_labels targets)
    (passage_mask targets) (rat_max_rationale_length self)
    (rat_reduction self) mask.


Definition EncoderDecoderYNGLoss_call
  (self : EncoderDecoderYNGLoss) (outputs : Outputs) (targets : Targets)
  (mask : option (list bool)) : result tensor :=
  yes_no_gen_loss (encoder_yng_logits outputs) (yng_label targets)
    (yng_weight self) (yng_reduction self) mask.

(** The shapes that [forward] needs: every tensor of the batch and of the
    model output has one row per example, and the rows of tensors that are
    combined have the same size. *)
Definition well_shaped (outputs : Outputs) (targets : Targets) : bool :=
  rationale_shapes (encoder_rationale_logits outputs)
    (rationale_labels targets) (passage_mask targets)
    (Some (map negb (yes_no targets)))
  && same_size (yes_no targets) (logits outputs)
  && same_size (yes_no targets) (labels targets)
  && aligned (logits outputs) (labels targets)
  && same_size (encoder_yng_logits outputs) (yng_label targets).

(** [EncoderDecoderLoss.forward]: the total loss and the log dictionary, in
    insertion order. *)
Definition forward
  (self : EncoderDecoderLoss) (outputs : Outputs) (targets : Targets)
  : result (tensor * list (string * ext)) :=
  let is_generative := map negb (yes_no targets) in
  yng_loss <-
    EncoderDecoderYNGLoss_call (yes_no_gen_loss_fn self) outputs targets None ;;
  rationale_loss <-
    EncoderDecoderRationaleLoss_call (rationale_loss_fn self) outputs targets
      (Some is_generative) ;;
  generative_loss <-
    EncoderDecoderGenerativeLoss_call (generative_loss_fn self) outputs targets
      (Some is_generative) ;;
  partial <- tadd (tscale (yng_loss_weight self) yng_loss)
               (tscale (rationale_loss_weight self) rationale_loss) ;;
  total_loss <- tadd partial
                  (tscale (generative_loss_weight self) generative_loss) ;;
  yng_item <- item yng_loss ;;
  rationale_item <- item rationale_loss ;;
  generative_item <- item generative_loss ;;
  let loss_logs := [("yng_loss"%string, yng_item);
                    ("rationale_loss"%string, rationale_item);
                    ("generative_loss"%string, generative_item)] in
  Ok (total_loss, loss_logs).

End WithKernels.

End LossObjects.

(** ** pipeline.py *)

(** The run configuration.  [gradient_clip] is [None] when the key is missing
    or holds ["none"]; the two scheduler names hold ["none"] when their key is
    missing. *)
Module Config.

Record t : Type := {
  model_type : string;
  yng_loss_weight : ext;
  rationale_loss_weight : ext;
  generative_loss_weight : ext;
  gradient_clip : option ext;
  accumulation_steps : Z;
  log_interval : Z;
  checkpoint_interval : Z;
  num_epochs : Z;
  warmup_fraction : ext;
  scheduler : string;
  teacher_force_scheduler : string;
  tf_start : ext;
  tf_end : ext;
  tf_fraction : ext;
  (* the global [CONFIG.rationale_max_length] *)
  rationale_max_length : Z
}.

End Config.

Module Pipeline.

Import LossObjects.

(** Python's [%] on integers: the sign of the divisor, an error at zero. *)
Definition py_mod (a b : Z) : result Z :=
  if (b =? 0)%Z then Raise ZeroDivisionError else Ok (a mod b)%Z.

(** Python's [int] on a float: truncation toward zero. *)
Definition py_int (x : ext) : result Z :=
  match x with
  | Fin q => Ok (Z.quot (Qnum q) (Zpos (Qden q)))
  | PInf | NInf => Raise OverflowError
  | NaN => Raise (ValueError "cannot convert float NaN to integer")
  end.



(** The scheduler objects, as the constructor calls that build them. *)
Inductive TeacherForceScheduler : Type :=
| LinearScheduler (start_value end_value : ext) (total_iters : Z) (fraction : ext)
| DummyScheduler.

Definition make_teacher_force_scheduler (steps_per_epoch : Z) (config : Config.t)
  : TeacherForceScheduler :=
  let total_steps := (steps_per_epoch * Config.num_epochs config)%Z in
  if negb (String.eqb (Config.teacher_force_scheduler config) "none") then
    LinearScheduler (Config.tf_start config) (Config.tf_end config) total_steps
      (Config.tf_fraction config)
  else DummyScheduler.

Section WithScheduler.

(** [transformers.get_scheduler], applied to the name, the number of warm-up
    steps and the number of training steps. *)
Context {LrScheduler : Type}.
Variable get_scheduler : string -> Z -> Z -> result LrScheduler.
Variable DummyLRScheduler : LrScheduler.

Definition make_scheduler (steps_per_epoch : Z) (config : Config.t)
  : result LrScheduler :=
  let total_steps := (steps_per_epoch * Config.num_epochs config)%Z in
  warmup_steps <-
    py_int (emul (Config.warmup_fraction config) (of_Z total_steps)) ;;
  if negb (String.eqb (Config.scheduler config) "none") then
    get_scheduler (Config.scheduler config) warmup_steps total_steps
  else Ok DummyLRScheduler.

End WithScheduler.

(** The state that a training step changes.  [optimizer_steps] has one entry
    for every call of [optimizer.step()], oldest first: the number of backward
    passes accumulated in the gradients that the call applies.
    [accumulated] is the number of backward passes accumulated in the
    gradients since they were last zeroed. *)
Record TrainState : Type := {
  optimizer_steps : list nat;
  accumulated : nat;
  clip_calls : nat;
  lr_scheduler_steps : nat;
  teacher_force_steps : nat
}.

Definition backward (st : TrainState) : TrainState :=
  {| optimizer_steps := optimizer_steps st;
     accumulated := S (accumulated st);
     clip_calls := clip_calls st;
     lr_scheduler_steps := lr_scheduler_steps st;
     teacher_force_steps := teacher_force_steps st |}.

Definition clip_grad_norm_ (st : TrainState) : TrainState :=
  {| optimizer_steps := optimizer_steps st;
     accumulated := accumulated st;
     clip_calls := S (clip_calls st);
     lr_scheduler_steps := lr_scheduler_steps st;
     teacher_force_steps := teacher_force_steps st |}.

Definition optimizer_step (st : TrainState) : TrainState :=
  {| optimizer_steps := optimizer_steps st ++ [accumulated st];
     accumulated := accumulated st;
     clip_calls := clip_calls st;
     lr_scheduler_steps := lr_scheduler_steps st;
     teacher_force_steps := teacher_force_steps st |}.

Definition optimizer_zero_grad (st : TrainState) : TrainState :=
  {| optimizer_steps := optimizer_steps st;
     accumulated := 0;
     clip_calls := clip_calls st;
     lr_scheduler_steps := lr_scheduler_steps st;
     teacher_force_steps := teacher_force_steps st |}.

Definition lr_scheduler_step (st : TrainState) : TrainState :=
  {| optimizer_steps := optimizer_steps st;
     accumulated := accumulated st;
     clip_calls := clip_calls st;
     lr_scheduler_steps := S (lr_scheduler_steps st);
     teacher_force_steps := teacher_force_steps st |}.

Definition teacher_force_scheduler_step (st : TrainState) : TrainState :=
  {| optimizer_steps := optimizer_steps st;
     accumulated := accumulated st;
     clip_calls := clip_calls st;
     lr_scheduler_steps := lr_scheduler_steps st;
     teacher_force_steps := S (teacher_force_steps st) |}.

(** A step that applies the optimizer and zeroes the gradients. *)
Definition applies_optimizer (st st' : TrainState) : Prop :=
  optimizer_steps st' = optimizer_steps st ++ [S (accumulated st)]
  /\ accumulated st' = 0%nat.

(** A step that only accumulates its gradients. *)
Definition accumulates (st st' : TrainState) : Prop :=
  optimizer_steps st' = optimizer_steps st
  /\ accumulated st' = S (accumulated st).

Definition steps_schedulers (st st' : TrainState) : Prop :=
  lr_scheduler_steps st' = S (lr_scheduler_steps st)
  /\ teacher_force_steps st' = S (teacher_force_steps st).

(** The optimizer history after [k] iterations of the loop with
    [accumulation_steps = a]: nothing before the first iteration; afterwards a
    first update from one backward pass, then one update from [a] backward
    passes for every [a] further iterations, and the remainder accumulated. *)
Definition history_after (a k : nat) (st : TrainState) : Prop :=
  match k with
  | O => optimizer_steps st = [] /\ accumulated st = 0%nat
  | S k' =>
      exists w r : nat,
        k' = (w * a + r)%nat /\ (r < a)%nat
        /\ optimizer_steps st = 1%nat :: repeat a w
        /\ accumulated st = r
  end.

Definition logs : Type := list (string * ext).

(** The protocol [ComputeLoss]. *)
Definition ComputeLoss : Type := Outputs -> Targets -> result (tensor * logs).

Section WithKernels.

Context {K : Kernels}.


(** The model, called on a batch in the current state of the run. *)
Variable model : TrainState -> Targets -> Outputs.

Definition train_batch
  (data : Targets) (step : Z) (loss_fn : ComputeLoss) (config : Config.t)
  (accelerator device : bool) (st : TrainState)
  : result (ext * logs * TrainState) :=
  if negb (accelerator || device) then
    Raise (AssertionError "One between accelerator and device must be set.")
  else
    let outputs := model st data in
    loss_inner <- loss_fn outputs data ;;
    let st := backward st in
    let st := match Config.gradient_clip config with
              | Some _ => clip_grad_norm_ st
              | None => st
              end in
    r <- py_mod step (Config.accumulation_steps config) ;;
    let st := if (r =? 0)%Z then optimizer_zero_grad (optimizer_step st)
              else st in
    let st := lr_scheduler_step st in
    let st := teacher_force_scheduler_step st in
    loss <- item (fst loss_inner) ;;
    Ok (loss, snd loss_inner, st).

(** The state of the loop of [train].  The evaluation passes and the
    checkpoints are counted, not run: they leave the optimizer, the gradients
    and the schedulers as they are. *)
Record LoopState : Type := {
  step : Z;
  checkpoint_counter : nat;
  evaluations : nat;
  state : TrainState
}.

Definition initial : LoopState :=
  {| step := 0;
     checkpoint_counter := 0;
     evaluations := 0;
     state := {| optimizer_steps := [];
                 accumulated := 0;
                 clip_calls := 0;
                 lr_scheduler_steps := 0;
                 teacher_force_steps := 0 |} |}.

(** One iteration of the inner loop of [train]. *)
Definition train_iteration
  (loss_fn : ComputeLoss) (config : Config.t) (total_steps : Z)
  (data : Targets) (s : LoopState) : result LoopState :=
  r <- train_batch data (step s) loss_fn config true false (state s) ;;
  let step := (step s + 1)%Z in
  log_r <- py_mod step (Config.log_interval config) ;;
  let evaluations :=
    if ((log_r =? 0) || (step =? total_steps))%Z then S (evaluations s)
    else evaluations s in
  checkpoint_r <- py_mod step (Config.checkpoint_interval config) ;;
  let checkpoint_counter :=
    if ((checkpoint_r =? 0) || (step =? total_steps))%Z
    then S (checkpoint_counter s) else checkpoint_counter s in
  Ok {| step := step;
        checkpoint_counter := checkpoint_counter;
        evaluations := evaluations;
        state := snd r |}.

Fixpoint train_epoch
  (loss_fn : ComputeLoss) (config : Config.t) (total_steps : Z)
  (train_dataloader : list Targets) (s : LoopState) : result LoopState :=
  match train_dataloader with
  | [] => Ok s
  | data :: rest =>
      s <- train_iteration loss_fn config total_steps data s ;;
      train_epoch loss_fn config total_steps rest s
  end.

Fixpoint train_epochs
  (loss_fn : ComputeLoss) (config : Config.t) (total_steps : Z)
  (train_dataloader : list Targets) (epochs : nat) (s : LoopState)
  : result LoopState :=
  match epochs with
  | O => Ok s
  | S epochs =>
      s <- train_epoch loss_fn config total_steps train_dataloader s ;;
      train_epochs loss_fn config total_steps train_dataloader epochs s
  end.

Definition train
  (train_dataloader : list Targets) (loss_fn : ComputeLoss) (config : Config.t)
  : result LoopState :=
  let steps_per_epoch := Z.of_nat (List.length train_dataloader) in
  let total_steps := (steps_per_epoch * Config.num_epochs config)%Z in
  train_epochs loss_fn config total_steps train_dataloader
    (Z.to_nat (Config.num_epochs config)) initial.

End WithKernels.

End Pipeline.

(** ** Concrete batches

    Rational stand-ins for the library kernels, to run the definitions on
    concrete batches: the margin of the target class for the cross-entropy,
    the hinge part of the binary cross-entropy, a rational approximation of
    the exponential on the negative axis, and the square for the power. *)

Module Examples.

Import Losses LossObjects Pipeline.

Definition vmax (v : vec) : ext :=
  fold_right (fun x m => if ele m x then x else m) NInf v.

Definition rational_kernels : Kernels :=
  {| cross_entropy_token := fun x t =>
       match nth_error x (Z.to_nat t) with
       | Some s => esub (vmax x) s
       | None => NaN
       end;
     bce_with_logits_token := fun x y =>
       esub (clamp_min (Fin 0) x) (emul x y);
     torch_exp := fun x => ediv (Fin 1) (esub (Fin 1) x);
     torch_pow := fun x _ => emul x x |}.

Definition ints (l : list Z) : vec := map of_Z l.

(** A batch of two examples: a yes/no example with label no, and a generative
    example with a target of four tokens and a rationale of two of the six
    passage tokens. *)
Definition targets2 : Targets :=
  {| labels := [[1; -100; -100; -100]; [2; 0; 1; 1]]%Z;
     rationale_labels :=
       [ints [0; 1; 1; 0; 0; 0; -100; -100];
        ints [0; 0; 1; 1; 0; 0; -100; -100]]%Z;
     passage_mask :=
       [ints [1; 1; 1; 1; 1; 1; 0; 0]; ints [1; 1; 1; 1; 1; 1; 0; 0]]%Z;
     yng_label := [1; 2]%Z;
     yes_no := [true; false] |}.

Definition outputs2 : Outputs :=
  {| logits :=
       [[ints [1; 3; 0]; ints [0; 0; 0]; ints [2; 1; 1]; ints [0; 1; 0]];
        [ints [0; 1; 4]; ints [2; 2; 1]; ints [0; 3; 1]; ints [1; 0; 0]]]%Z;
     encoder_rationale_logits :=
       [ints [1; -1; 2; 0; -2; 1; 3; 3]; ints [-1; 1; 2; -1; 0; 1; 5; -5]]%Z;
     encoder_yng_logits := [ints [2; 1; 0]; ints [0; 3; 1]]%Z;
     rationale_logits :=
       [ints [1; -1; 2; 0; -2; 1; 3; 3]; ints [-1; 1; 2; -1; 0; 1; 5; -5]]%Z;
     yng_logits := [ints [2; 1; 0]; ints [0; 3; 1]]%Z |}.

(** The same batch with every example marked yes/no. *)
Definition targets_yes_no : Targets :=
  {| labels := labels targets2;
     rationale_labels := rationale_labels targets2;
     passage_mask := passage_mask targets2;
     yng_label := [1; 0]%Z;
     yes_no := [true; true] |}.

(** The generative logits and labels padded with two more positions. *)
Definition padded_logits : list (list vec) :=
  [[ints [1; 3; 0]; ints [0; 0; 0]; ints [2; 1; 1]; ints [0; 1; 0];
    ints [7; 7; 7]; ints [0; 9; 0]];
   [ints [0; 1; 4]; ints [2; 2; 1]; ints [0; 3; 1]; ints [1; 0; 0];
    ints [5; 0; 0]; ints [1; 1; 1]]]%Z.

Definition config2 : Config.t :=
  {| Config.model_type := "encoder_decoder";
     Config.yng_loss_weight := Fin 1;
     Config.rationale_loss_weight := Fin (1 # 2);
     Config.generative_loss_weight := Fin 2;
     Config.gradient_clip := Some (Fin 1);
     Config.accumulation_steps := 3;
     Config.log_interval := 2;
     Config.checkpoint_interval := 4;
     Config.num_epochs := 2;
     Config.warmup_fraction := Fin (1 # 10);
     Config.scheduler := "linear";
     Config.teacher_force_scheduler := "linear";
     Config.tf_start := Fin 1;
     Config.tf_end := Fin 0;
     Config.tf_fraction := Fin (1 # 2);
     Config.rationale_max_length := 4 |}.

Definition loss2 : EncoderDecoderLoss :=
  {| yng_loss_weight := Fin 1;
     rationale_loss_weight := Fin (1 # 2);
     generative_loss_weight := Fin 2;
     yes_no_gen_loss_fn := {| yng_weight := None; yng_reduction := "mean" |};
     rationale_loss_fn :=
       {| rat_max_rationale_length := 4; rat_reduction := "mean" |};
     generative_loss_fn := {| gen_reduction := "mean" |} |}.

Definition model2 : TrainState -> Targets -> Outputs := fun _ _ => outputs2.

Definition state0 : TrainState := state initial.

(** A scheduler factory that knows two names. *)
Definition get_scheduler2 (name : string) (num_warmup_steps num_training_steps : Z)
  : result (string * Z * Z) :=
  if String.eqb name "linear" || String.eqb name "cosine" then
    Ok (name, num_warmup_steps, num_training_steps)
  else Raise (ValueError "not a valid SchedulerType").

End Examples.

(** ** The run of the training loop

    Bookkeeping of [train]: which iterations evaluate and save a checkpoint,
    and what a run of [k] iterations leaves behind. *)

Module Run.

Import Pipeline.

(** The number of iterations, among the first [k], whose step number (after
    the increment) is a multiple of [interval] or is [total_steps]: the
    condition under which [train] evaluates, and saves a checkpoint. *)
Fixpoint due_count (interval total_steps : Z) (k : nat) : nat :=
  match k with
  | O => 0
  | S k' =>
      due_count interval total_steps k'
      + (if ((Z.of_nat k mod interval =? 0) || (Z.of_nat k =? total_steps))%Z
         then 1 else 0)
  end.

(** The state of the loop after [k] iterations. *)
Definition after_iterations
  (config : Config.t) (total_steps : Z) (k : nat) (s : LoopState) : Prop :=
  step s = Z.of_nat k
  /\ lr_scheduler_steps (state s) = k
  /\ teacher_force_steps (state s) = k
  /\ clip_calls (state s)
     = match Config.gradient_clip config with Some _ => k | None => 0%nat end
  /\ (list_sum (optimizer_steps (state s)) + accumulated (state s))%nat = k
  /\ evaluations s = due_count (Config.log_interval config) total_steps k
  /\ checkpoint_counter s
     = due_count (Config.checkpoint_interval config) total_steps k.

End Run.

(** ** Notions for further properties of the losses *)

Module LossNotions.


(** Two tensors of finite logits that are equal wherever the passage mask is
    not zero. *)
Inductive agree_on_passage : vec -> vec -> vec -> Prop :=
| agree_nil : agree_on_passage [] [] []
| agree_cons (x x' p : ext) (logits logits' passage_mask : vec) :
    finite x -> finite x' -> finite p ->
    (~ eqv p (Fin 0) -> x = x') ->
    agree_on_passage logits logits' passage_mask ->
    agree_on_passage (x :: logits) (x' :: logits') (p :: passage_mask).

(** A sequence has a target that is scored. *)
Definition has_scored_token (labels : list Z) : Prop :=
  Exists (fun t => t <> Losses.IGNORE_INDEX) labels.

End LossNotions.

(** ** generate_annotation.py

    Texts are lists of characters.  The character classes are those of
    Python on ASCII text: [string.punctuation], the white space of
    [str.split] and the letters that [str.lower] changes; characters outside
    ASCII are not modelled, and the properties of [normalize_text] are stated
    for ASCII texts. *)

Module Annotation.

Abbreviation text := (list ascii).

Definition str (s : string) : text := list_ascii_of_string s.

Inductive AnswerType : Type :=
| UNKNOWN
| SPAN
| YES_NO
| FLUENCY
| COUNTING
| MULTIPLE_CHOICE.

Definition AnswerType_eqb (a b : AnswerType) : bool :=
  match a, b with
  | UNKNOWN, UNKNOWN | SPAN, SPAN | YES_NO, YES_NO | FLUENCY, FLUENCY
  | COUNTING, COUNTING | MULTIPLE_CHOICE, MULTIPLE_CHOICE => true
  | _, _ => false
  end.

(** [AnswerType.__str__]: the name of the member, in lower case. *)
Definition AnswerType_str (c : AnswerType) : string :=
  match c with
  | UNKNOWN => "unknown"
  | SPAN => "span"
  | YES_NO => "yes_no"
  | FLUENCY => "fluency"
  | COUNTING => "counting"
  | MULTIPLE_CHOICE => "multiple_choice"
  end.



(** *** Characters *)

Definition code (c : ascii) : nat := nat_of_ascii c.

Definition between (lo hi : nat) (c : ascii) : bool :=
  ((lo <=? code c) && (code c <=? hi))%nat.

Definition is_ascii (c : ascii) : bool := (code c <? 128)%nat.

(** [string.punctuation]. *)
Definition is_punctuation (c : ascii) : bool :=
  between 33 47 c || between 58 64 c || between 91 96 c || between 123 126 c.

(** The white space of [str.split] without a separator. *)
Definition is_space (c : ascii) : bool :=
  between 9 13 c || between 28 32 c.

Definition lower_char (c : ascii) : ascii :=
  if between 65 90 c then ascii_of_nat (code c + 32) else c.

(** *** [normalize_text] *)

Definition lower (t : text) : text := map lower_char t.

Definition remove_punc (t : text) : text :=
  filter (fun ch => negb (is_punctuation ch)) t.

(** [text.split()]: the maximal runs of characters that are not white
    space. *)
Fixpoint split (t : text) : list text :=
  match t with
  | [] => []
  | c :: t' =>
      if is_space c then split t'
      else
        match t' with
        | [] => [[c]]
        | d :: _ =>
            if is_space d then [c] :: split t'
            else
              match split t' with
              | w :: ws => (c :: w) :: ws
              | [] => [[c]]
              end
        end
  end.

(** [sep.join(words)]. *)
Fixpoint join (sep : text) (words : list text) : text :=
  match words with
  | [] => []
  | [w] => w
  | w :: ws => w ++ sep ++ join sep ws
  end.

Definition white_space_fix (t : text) : text := join (str " ") (split t).

Definition normalize_text (t : text) : text :=
  white_space_fix (remove_punc (lower t)).

(** A word: a text that is not empty and has no white space. *)
Definition spaceless (w : text) : Prop :=
  w <> [] /\ Forall (fun c => is_space c = false) w.

(** The characters of a normalised text. *)
Definition normal_char (c : ascii) : Prop :=
  lower_char c = c /\ is_punctuation c = false.

Definition ascii_text (t : text) : Prop :=
  Forall (fun c => is_ascii c = true) t.

(** *** [find_answer_span] *)

Section Find.

Context {A : Type}.
Variable eqb : A -> A -> bool.

Fixpoint startswith (s sub : list A) : bool :=
  match sub, s with
  | [], _ => true
  | a :: sub', b :: s' => eqb a b && startswith s' sub'
  | _ :: _, [] => false
  end.

(** [s.find(sub)], searching from position [i] of the whole string. *)
Fixpoint find_from (s sub : list A) (i : Z) : Z :=
  if startswith s sub then i
  else
    match s with
    | [] => (-1)%Z
    | _ :: s' => find_from s' sub (i + 1)%Z
    end.

(** [s.find(sub)]: the lowest index of [sub] in [s], or [-1]. *)
Definition find (s sub : list A) : Z := find_from s sub 0.

(** [sub in s]. *)
Definition contains (s sub : list A) : bool := negb (find s sub =? -1)%Z.

Definition find_answer_span (passage answer : list A) : option (Z * Z) :=
  let start_idx := find passage answer in
  let end_idx := (start_idx + Z.of_nat (List.length answer))%Z in
  if (start_idx =? -1)%Z then None else Some (start_idx, end_idx).

End Find.

Definition text_eqb (a b : text) : bool :=
  if list_eq_dec ascii_dec a b then true else false.

(** *** [get_answer_type] *)

Section WithUtils.

(** [utils.is_number]. *)
Variable is_number : text -> bool.

Definition get_answer_type
  (norm_passage norm_question answer : text) (span_start span_end : Z)
  : AnswerType :=
  let answer := normalize_text answer in
  if ((span_start =? -1) && (span_end =? -1))%Z then UNKNOWN
  else if text_eqb answer (str "yes") || text_eqb answer (str "no") then YES_NO
  else
    match find_answer_span Ascii.eqb norm_passage answer with
    | Some _ => SPAN
    | None =>
        if contains Ascii.eqb norm_question (str "or")
           && contains Ascii.eqb norm_question answer
        then MULTIPLE_CHOICE
        else if is_number answer then COUNTING
        else FLUENCY
    end.

(** An answer of the dataset; [a_answer_type] is the key that the annotation
    sets. *)
Record AnswerItem : Type := {
  a_input_text : text;
  a_span_start : Z;
  a_span_end : Z;
  a_answer_type : option string
}.

Record QuestionItem : Type := {
  q_input_text : text;
  q_answer_type : option string
}.

Definition annotate_answer_with_answer_type
  (norm_passage norm_question : text) (answer_item : AnswerItem)
  : AnswerItem * AnswerType :=
  let answer := a_input_text answer_item in
  let span_start := a_span_start answer_item in
  let span_end := a_span_end answer_item in
  let answer_type :=
    get_answer_type norm_passage norm_question answer span_start span_end in
  ({| a_input_text := a_input_text answer_item;
      a_span_start := a_span_start answer_item;
      a_span_end := a_span_end answer_item;
      a_answer_type := Some (AnswerType_str answer_type) |},
   answer_type).

Definition AnswerType_eq_dec (a b : AnswerType) : {a = b} + {a <> b}.
Proof. decide equality. Defined.

(** The count of a key in a counter, zero when the key is missing. *)
Fixpoint count_of (c : list (AnswerType * nat)) (t : AnswerType) : nat :=
  match c with
  | [] => 0
  | (u, n) :: c' => if AnswerType_eqb t u then n else count_of c' t
  end.

(** A counter holds every key once, with a count that is not zero. *)
Definition counter_ok (c : list (AnswerType * nat)) : Prop :=
  NoDup (map fst c) /\ Forall (fun p => (0 < snd p)%nat) c.

(** [collections.Counter]: the counts, in the order in which the keys were
    first seen. *)
Fixpoint counter_add (t : AnswerType) (c : list (AnswerType * nat))
  : list (AnswerType * nat) :=
  match c with
  | [] => [(t, 1%nat)]
  | (u, n) :: c' =>
      if AnswerType_eqb t u then (u, S n) :: c' else (u, n) :: counter_add t c'
  end.

Definition Counter (l : list AnswerType) : list (AnswerType * nat) :=
  fold_left (fun c t => counter_add t c) l [].

(** [most_common(n=1)]: the first of the keys with the largest count. *)
Definition most_common_1 (c : list (AnswerType * nat))
  : option (AnswerType * nat) :=
  match c with
  | [] => None
  | x :: c' =>
      Some (fold_left
              (fun best y => if (snd best <? snd y)%nat then y else best) c' x)
  end.

(** The errors of the annotation. *)
Inductive AnnotationError : Type :=
| UnboundLocalError
| EmptyIndexError.

(** The loop of [annotate_question_with_answer_type]: the annotated answers,
    the types seen so far, and the local [answer_type], unbound before the
    first answer. *)
Fixpoint annotate_answers
  (norm_passage norm_question : text) (question_answers : list AnswerItem)
  (answer_types : list AnswerType) (answer_type : option AnswerType)
  : AnnotationError
    + (list AnswerItem * list AnswerType * option AnswerType) :=
  match question_answers with
  | [] => inr ([], answer_types, answer_type)
  | answer_item :: rest =>
      let annotated :=
        annotate_answer_with_answer_type norm_passage norm_question
          answer_item in
      let answer_types := answer_types ++ [snd annotated] in
      match most_common_1 (Counter answer_types) with
      | None => inl EmptyIndexError
      | Some (answer_type, _) =>
          match annotate_answers norm_passage norm_question rest
                  answer_types (Some answer_type) with
          | inl e => inl e
          | inr (items, types, final) => inr (fst annotated :: items, types, final)
          end
      end
  end.

Definition annotate_question_with_answer_type
  (norm_passage : text) (question_item : QuestionItem)
  (question_answers : list AnswerItem)
  : AnnotationError + (QuestionItem * list AnswerItem * AnswerType) :=
  let question := q_input_text question_item in
  let norm_question := normalize_text question in
  match annotate_answers norm_passage norm_question question_answers [] None
  with
  | inl e => inl e
  | inr (items, _, None) => inl UnboundLocalError
  | inr (items, _, Some answer_type) =>
      inr ({| q_input_text := q_input_text question_item;
              q_answer_type := Some (AnswerType_str answer_type) |},
           items, answer_type)
  end.

(** *** [annotate_with_answer_type] *)

(** A story of the dataset; [additional_answers] may be missing, and maps the
    keys of the additional annotators, in the order of the dictionary, to
    their answers. *)
Record Item : Type := {
  story : text;
  questions : list QuestionItem;
  answers : list AnswerItem;
  additional_answers : option (list (string * list AnswerItem))
}.

(** The next element of every list, if none of them is exhausted. *)
Fixpoint heads {A : Type} (cols : list (list A))
  : option (list A * list (list A)) :=
  match cols with
  | [] => Some ([], [])
  | [] :: _ => None
  | (x :: col) :: cols' =>
      match heads cols' with
      | Some (hs, ts) => Some (x :: hs, col :: ts)
      | None => None
      end
  end.

(** [zip(questions, *cols)], read as [question_item, *question_answers]: it
    stops at the shortest of its arguments. *)
Fixpoint zip {A B : Type} (questions : list A) (cols : list (list B))
  : list (A * list B) :=
  match questions with
  | [] => []
  | question_item :: questions' =>
      match heads cols with
      | Some (question_answers, cols') =>
          (question_item, question_answers) :: zip questions' cols'
      | None => []
      end
  end.

(** The dictionary of the additional answers that the loop reads. *)
Definition additional_of (use_additional_answers : bool) (item : Item)
  : list (string * list AnswerItem) :=
  if use_additional_answers then
    match additional_answers item with
    | Some d => d
    | None => []
    end
  else [].

(** The turns of a story, annotated in order; the first error ends the
    loop. *)
Fixpoint annotate_turns
  (norm_passage : text) (turns : list (QuestionItem * list AnswerItem))
  : AnnotationError + list (QuestionItem * list AnswerItem) :=
  match turns with
  | [] => inr []
  | (question_item, question_answers) :: turns' =>
      match annotate_question_with_answer_type norm_passage question_item
              question_answers with
      | inl e => inl e
      | inr (question_item', question_answers', _) =>
          match annotate_turns norm_passage turns' with
          | inl e => inl e
          | inr done => inr ((question_item', question_answers') :: done)
          end
      end
  end.

Definition annotate_item (use_additional_answers : bool) (item : Item)
  : AnnotationError + list (QuestionItem * list AnswerItem) :=
  let passage := story item in
  let additional := additional_of use_additional_answers item in
  let norm_passage := normalize_text passage in
  annotate_turns norm_passage
    (zip (questions item) (answers item :: map snd additional)).

(** The annotated turns of every story: the dictionaries that the source
    updates in place. *)
Fixpoint annotate_with_answer_type
  (coqa_data : list Item) (use_additional_answers : bool)
  : AnnotationError + list (list (QuestionItem * list AnswerItem)) :=
  match coqa_data with
  | [] => inr []
  | item :: data' =>
      match annotate_item use_additional_answers item with
      | inl e => inl e
      | inr turns =>
          match annotate_with_answer_type data' use_additional_answers with
          | inl e => inl e
          | inr done => inr (turns :: done)
          end
      end
  end.

End WithUtils.

(** [_create_readable_head]; an argument that is [None] or empty is left
    out. *)
Definition _create_readable_head (source id split : option string) : string :=
  let part (label : string) (v : option string) : list string :=
    match v with
    | Some s => if String.eqb s "" then [] else [(label ++ s)%string]
    | None => []
    end in
  String.concat ", "
    (part "source: "%string source ++ part "id: "%string id
     ++ part "split: "%string split).

End Annotation.

(** ** Averages of the answer F1 ([evaluation.py]) *)

Module Evaluation.

Import Torch Annotation.

(** The columns of a prediction that the averages read. *)
Record Example : Type := {
  answer_type : string;
  answer_f1 : ext
}.

(** [np.mean] of a list of numbers; the mean of no number is [nan]. *)
Definition np_mean (values : vec) : ext := vmean values.

(** Python's [/] on two lengths. *)
Definition py_truediv (a b : nat) : result Q :=
  if (b =? 0)%nat then Raise ZeroDivisionError
  else Ok (inject_Z (Z.of_nat a) / inject_Z (Z.of_nat b)).

(** [Dataset.filter]; without a function every example is kept. *)
Definition dataset_filter
  (predictions : list Example) (filter_fn : option (Example -> bool))
  : list Example :=
  match filter_fn with
  | Some f => filter f predictions
  | None => predictions
  end.

Definition compute_avg_f1
  (predictions : list Example) (filter_fn : option (Example -> bool))
  : result (ext * Q) :=
  let examples := dataset_filter predictions filter_fn in
  let avg_f1 := np_mean (map answer_f1 examples) in
  ratio <- py_truediv (List.length examples) (List.length predictions) ;;
  Ok (avg_f1, ratio).





End Evaluation.

(** ** Data for the further properties *)

Module MoreExamples.

Import Torch LossObjects Pipeline Examples Annotation Evaluation.

(** A dataloader of four batches. *)
Definition dataloader4 : list Targets :=
  [targets2; targets2; targets2; targets2].


(** The configuration of the examples, with another model type and another
    logging interval. *)
Definition config_with (model_type : string) (log_interval : Z) : Config.t :=
  {| Config.model_type := model_type;
     Config.yng_loss_weight := Config.yng_loss_weight config2;
     Config.rationale_loss_weight := Config.rationale_loss_weight config2;
     Config.generative_loss_weight := Config.generative_loss_weight config2;
     Config.gradient_clip := Config.gradient_clip config2;
     Config.accumulation_steps := Config.accumulation_steps config2;
     Config.log_interval := log_interval;
     Config.checkpoint_interval := Config.checkpoint_interval config2;
     Config.num_epochs := Config.num_epochs config2;
     Config.warmup_fraction := Config.warmup_fraction config2;
     Config.scheduler := Config.scheduler config2;
     Config.teacher_force_scheduler := Config.teacher_force_scheduler config2;
     Config.tf_start := Config.tf_start config2;
     Config.tf_end := Config.tf_end config2;
     Config.tf_fraction := Config.tf_fraction config2;
     Config.rationale_max_length := Config.rationale_max_length config2 |}.

(** An example of the rationale loss: six passage tokens, two of them in the
    rationale, and two positions outside the passage. *)
Definition rationale_labels1 : vec := ints [0; 0; 1; 1; 0; 0; -100; -100]%Z.
Definition passage_mask1 : vec := ints [1; 1; 1; 1; 1; 1; 0; 0]%Z.
Definition rationale_logits1 : vec := ints [-1; 1; 2; -1; 0; 1; 5; -5]%Z.

(** The same logits, changed outside the passage. *)
Definition rationale_logits1' : vec := ints [-1; 1; 2; -1; 0; 1; 0; 9]%Z.

(** A mask without a passage token. *)
Definition no_passage : vec := ints [0; 0; 0; 0; 0; 0; 0; 0]%Z.



(** A test for numbers that knows the unsigned integers only. *)
Definition is_integer (t : text) : bool :=
  match t with
  | [] => false
  | _ :: _ => forallb (between 48 57) t
  end.

(** A passage, a question and three answers to it. *)
Definition passage1 : text :=
  normalize_text (str "The cat sat on the mat. It was grey.").

Definition question1 : QuestionItem :=
  {| q_input_text := str "Where did the cat sit?"; q_answer_type := None |}.

Definition answer (input_text : string) (span_start span_end : Z)
  : AnswerItem :=
  {| a_input_text := str input_text;
     a_span_start := span_start;
     a_span_end := span_end;
     a_answer_type := None |}.

Definition answers1 : list AnswerItem :=
  [answer "On the mat." 12 22; answer "a rug" 12 22; answer "the mat" 15 22].

(** Four predictions: two spans, a yes/no answer and an unknown one. *)
Definition predictions4 : list Example :=
  [{| answer_type := "span"; answer_f1 := Fin 1 |};
   {| answer_type := "yes_no"; answer_f1 := Fin 0 |};
   {| answer_type := "span"; answer_f1 := Fin (1 # 2) |};
   {| answer_type := "unknown"; answer_f1 := Fin (1 # 4) |}].

Definition is_span (ex : Example) : bool :=
  String.eqb (answer_type ex) "span".

End MoreExamples.

(* ================================================================== *)
(** * Part II: properties *)
(* ================================================================== *)

(** ** Arithmetic of extended rationals *)

Module NumFacts.

Lemma eqv_refl (x : ext) : eqv x x.
Proof. destruct x; simpl; auto with qarith. Qed.

Lemma eqv_sym (x y : ext) : eqv x y -> eqv y x.
Proof. destruct x, y; simpl; auto with qarith. Qed.

Lemma eqv_trans (x y z : ext) : eqv x y -> eqv y z -> eqv x z.
Proof.
  destruct x, y, z; simpl; try tauto.
  intros H1 H2. now rewrite H1.
Qed.

Lemma finite_is_Fin (x : ext) : finite x -> exists q, x = Fin q.
Proof. destruct x; simpl; try tauto. intros _. now exists q. Qed.

Lemma finite_eqv (x y : ext) : eqv x y -> finite x -> finite y.
Proof. destruct x, y; simpl; tauto. Qed.

Lemma finite_eopp (x : ext) : finite x -> finite (eopp x).
Proof. destruct x; simpl; tauto. Qed.

Lemma finite_eadd (x y : ext) : finite x -> finite y -> finite (eadd x y).
Proof. destruct x, y; simpl; tauto. Qed.

Lemma finite_esub (x y : ext) : finite x -> finite y -> finite (esub x y).
Proof. intros. apply finite_eadd; auto using finite_eopp. Qed.

Lemma finite_emul (x y : ext) : finite x -> finite y -> finite (emul x y).
Proof. destruct x, y; simpl; tauto. Qed.

Lemma signed_inf_pos (q : Q) : 0 < q -> signed_inf q = PInf.
Proof.
  intros H. unfold signed_inf.
  destruct (q ?= 0) eqn:E; auto.
  - apply Qeq_alt in E. lra.
  - apply Qlt_alt in E. lra.
Qed.

Lemma signed_inf_eqv (a b : Q) : a == b -> signed_inf a = signed_inf b.
Proof. intros H. unfold signed_inf. now rewrite H. Qed.

Lemma Qeq_bool_false (a b : Q) : ~ a == b -> Qeq_bool a b = false.
Proof.
  intros H. destruct (Qeq_bool a b) eqn:E; auto.
  apply Qeq_bool_eq in E. contradiction.
Qed.


Lemma Qle_bool_false (a b : Q) : b < a -> Qle_bool a b = false.
Proof.
  intros H. destruct (Qle_bool a b) eqn:E; auto.
  apply Qle_bool_imp_le in E. lra.
Qed.

Lemma Qle_bool_true (a b : Q) : a <= b -> Qle_bool a b = true.
Proof. apply Qle_bool_iff. Qed.

Lemma Qle_bool_eqv (c a b : Q) : a == b -> Qle_bool c a = Qle_bool c b.
Proof.
  intros H.
  destruct (Qle_bool c a) eqn:E1, (Qle_bool c b) eqn:E2; auto.
  - apply Qle_bool_imp_le in E1. rewrite Qle_bool_true in E2; [easy | lra].
  - apply Qle_bool_imp_le in E2. rewrite Qle_bool_true in E1; [easy | lra].
Qed.

(** Division by a finite value that is not zero. *)
Lemma ediv_Fin (a b : Q) : ~ b == 0 -> ediv (Fin a) (Fin b) = Fin (a / b).
Proof. intros H. simpl. now rewrite Qeq_bool_false. Qed.

(** A positive value over a finite value is finite or [+inf]. *)
Lemma ediv_pos (a b : Q) :
  0 < a -> ediv (Fin a) (Fin b) = (if Qeq_bool b 0 then PInf else Fin (a / b)).
Proof. intros H. simpl. now rewrite signed_inf_pos. Qed.

Lemma clamp_min_Fin (m q : Q) :
  clamp_min (Fin m) (Fin q) = Fin (if Qle_bool m q then q else m).
Proof. simpl. now destruct (Qle_bool m q). Qed.

Lemma clamp_min_ge (m q : Q) : m <= (if Qle_bool m q then q else m).
Proof.
  destruct (Qle_bool m q) eqn:E.
  - now apply Qle_bool_imp_le.
  - lra.
Qed.

(** The operations respect [eqv]. *)
Lemma eadd_eqv (x x' y y' : ext) :
  eqv x x' -> eqv y y' -> eqv (eadd x y) (eadd x' y').
Proof.
  destruct x, x', y, y'; simpl; try tauto.
  intros H1 H2. now rewrite H1, H2.
Qed.

Lemma emul_eqv (x x' y y' : ext) :
  eqv x x' -> eqv y y' -> eqv (emul x y) (emul x' y').
Proof.
  destruct x, x', y, y'; simpl; try tauto; intros H1 H2;
    try (now rewrite H1, H2);
    try (rewrite (signed_inf_eqv _ _ H1); apply eqv_refl);
    try (rewrite (signed_inf_eqv _ _ H2); apply eqv_refl).
  - rewrite (signed_inf_eqv (- q) (- q0)); [apply eqv_refl | now rewrite H1].
  - rewrite (signed_inf_eqv (- q) (- q0)); [apply eqv_refl | now rewrite H2].
Qed.

Lemma ediv_eqv (x x' y y' : ext) :
  eqv x x' -> eqv y y' -> eqv (ediv x y) (ediv x' y').
Proof.
  destruct x, x', y, y'; simpl; try tauto; intros H1 H2; try reflexivity.
  - rewrite H2. destruct (Qeq_bool q2 0) eqn:E.
    + rewrite (signed_inf_eqv _ _ H1). apply eqv_refl.
    + simpl. apply Qeq_bool_neq in E. now rewrite H1, H2.
  - rewrite (Qle_bool_eqv 0 _ _ H2). destruct (Qle_bool 0 q0); exact I.
  - rewrite (Qle_bool_eqv 0 _ _ H2). destruct (Qle_bool 0 q0); exact I.
Qed.

Lemma eadd_zero_r (x : ext) : eqv (eadd x (Fin 0)) x.
Proof. destruct x; simpl; auto. ring. Qed.

End NumFacts.

(** ** The training step and the training loop *)

Module PipelineFacts.

Import LossObjects Pipeline.

Section Training.

Variable model : TrainState -> Targets -> Outputs.

Lemma train_batch_ok data step loss_fn config st l inner :
  loss_fn (model st data) data = Ok (Scalar l, inner) ->
  Config.accumulation_steps config <> 0%Z ->
  exists st',
    train_batch model data step loss_fn config true false st
      = Ok (l, inner, st')
    /\ steps_schedulers st st'
    /\ ((step mod Config.accumulation_steps config = 0)%Z ->
        applies_optimizer st st')
    /\ ((step mod Config.accumulation_steps config <> 0)%Z ->
        accumulates st st').
Proof.
  intros Hloss Ha.
  unfold train_batch, py_mod. simpl negb. cbv iota.
  rewrite Hloss. simpl bind.
  destruct (Z.eqb_spec (Config.accumulation_steps config) 0) as [E | _];
    [contradiction |].
  simpl bind.
  destruct (Z.eqb_spec (step mod Config.accumulation_steps config) 0)
    as [E | E];
    eexists; (split; [reflexivity |]);
    unfold steps_schedulers, applies_optimizer, accumulates;
    destruct (Config.gradient_clip config); simpl; tauto.
Qed.

(** C2: the optimizer step and the zeroing of the gradients happen exactly on
    the steps whose number is a multiple of [accumulation_steps]; on every
    other step the accumulated gradients stay, with the new backward pass
    added; the learning-rate scheduler and the teacher-force scheduler are
    stepped on every step. *)
Theorem train_batch_accumulation
  data step loss_fn config st l inner :
  loss_fn (model st data) data = Ok (Scalar l, inner) ->
  Config.accumulation_steps config <> 0%Z ->
  exists st',
    train_batch model data step loss_fn config true false st
      = Ok (l, inner, st')
    /\ lr_scheduler_steps st' = S (lr_scheduler_steps st)
    /\ teacher_force_steps st' = S (teacher_force_steps st)
    /\ ((step mod Config.accumulation_steps config = 0)%Z ->
        optimizer_steps st' = optimizer_steps st ++ [S (accumulated st)]
        /\ accumulated st' = 0%nat)
    /\ ((step mod Config.accumulation_steps config <> 0)%Z ->
        optimizer_steps st' = optimizer_steps st
        /\ accumulated st' = S (accumulated st)).
Proof.
  intros Hloss Ha.
  destruct (train_batch_ok data step loss_fn config st l inner Hloss Ha)
    as (st' & Hrun & (Hlr & Htf) & Hopt & Hacc).
  exists st'. repeat split; auto; try (now apply Hopt); now apply Hacc.
Qed.

Section Loop.

Variable loss_fn : ComputeLoss.
Variable config : Config.t.
Variable total_steps : Z.
Variable train_dataloader : list Targets.

Let a : nat := Z.to_nat (Config.accumulation_steps config).

Hypothesis loss_ok :
  forall st data, In data train_dataloader ->
    exists l inner, loss_fn (model st data) data = Ok (Scalar l, inner).
Hypothesis accumulation_pos : (0 < Config.accumulation_steps config)%Z.
Hypothesis log_interval_nz : Config.log_interval config <> 0%Z.
Hypothesis checkpoint_interval_nz : Config.checkpoint_interval config <> 0%Z.

Lemma history_step (k : nat) (st st' : TrainState) :
  history_after a k st ->
  (((Z.of_nat k) mod Config.accumulation_steps config = 0)%Z ->
   applies_optimizer st st') ->
  (((Z.of_nat k) mod Config.accumulation_steps config <> 0)%Z ->
   accumulates st st') ->
  history_after a (S k) st'.
Proof.
  intros Hk Hopt Hacc.
  assert (Ha : Config.accumulation_steps config = Z.of_nat a)
    by (unfold a; lia).
  assert (Hpos : (0 < a)%nat) by (unfold a; lia).
  rewrite Ha in Hopt, Hacc.
  rewrite <- Nat2Z.inj_mod in Hopt, Hacc.
  destruct k as [| k']; simpl in Hk |- *.
  - destruct Hk as [Hs Hg].
    destruct Hopt as [Hs' Hg'].
    { rewrite Nat.Div0.mod_0_l. reflexivity. }
    exists 0%nat, 0%nat. rewrite Hs' , Hs, Hg, Hg'. simpl. repeat split; lia.
  - destruct Hk as (w & r & Hk & Hr & Hs & Hg).
    destruct (Nat.eq_dec (S r) a) as [E | E].
    + destruct Hopt as [Hs' Hg'].
      { assert (Hm : (S k' mod a = 0)%nat).
        { replace (S k') with (0 + (S w) * a)%nat by lia.
          rewrite Nat.Div0.mod_add. apply Nat.Div0.mod_0_l. }
        lia. }
      exists (S w), 0%nat. rewrite Hs', Hs, Hg, Hg', E.
      repeat split; try lia.
      simpl. f_equal. rewrite <- repeat_cons. reflexivity.
    + destruct Hacc as [Hs' Hg'].
      { assert (Hm : (S k' mod a = S r)%nat).
        { replace (S k') with (S r + w * a)%nat by lia.
          rewrite Nat.Div0.mod_add. apply Nat.mod_small. lia. }
        lia. }
      exists w, (S r). rewrite Hs', Hs, Hg', Hg. repeat split; lia.
Qed.

Lemma train_iteration_ok (data : Targets) (s : LoopState) (k : nat) :
  In data train_dataloader ->
  step s = Z.of_nat k ->
  history_after a k (state s) ->
  exists s',
    train_iteration model loss_fn config total_steps data s = Ok s'
    /\ step s' = Z.of_nat (S k)
    /\ history_after a (S k) (state s').
Proof.
  intros Hin Hstep Hk.
  destruct (loss_ok (state s) data Hin) as (l & inner & Hloss).
  destruct (train_batch_ok data (step s) loss_fn config (state s) l inner Hloss)
    as (st' & Hrun & _ & Hopt & Hacc); [lia |].
  unfold train_iteration. rewrite Hrun. simpl bind.
  unfold py_mod.
  destruct (Z.eqb_spec (Config.log_interval config) 0); [contradiction |].
  destruct (Z.eqb_spec (Config.checkpoint_interval config) 0);
    [contradiction |].
  simpl bind. eexists. split; [reflexivity |]. simpl. split; [lia |].
  rewrite Hstep in Hopt, Hacc.
  now apply (history_step k (state s) st').
Qed.

Lemma train_epoch_ok (batches : list Targets) :
  incl batches train_dataloader ->
  forall (s : LoopState) (k : nat),
    step s = Z.of_nat k ->
    history_after a k (state s) ->
    exists s',
      train_epoch model loss_fn config total_steps batches s = Ok s'
      /\ step s' = Z.of_nat (k + List.length batches)
      /\ history_after a (k + List.length batches) (state s').
Proof.
  induction batches as [| data rest IH]; intros Hincl s k Hstep Hk.
  - exists s. simpl. rewrite Nat.add_0_r. auto.
  - destruct (train_iteration_ok data s k) as (s1 & Hrun & Hstep1 & Hk1);
      auto.
    { apply Hincl. now left. }
    assert (Hrest : incl rest train_dataloader).
    { intros x Hx. apply Hincl. now right. }
    destruct (IH Hrest s1 (S k) Hstep1 Hk1) as (s' & Hrun' & Hstep' & Hk').
    exists s'. simpl. rewrite Hrun. simpl bind.
    replace (k + S (List.length rest))%nat with (S k + List.length rest)%nat
      by lia.
    auto.
Qed.

Lemma train_epochs_ok (epochs : nat) :
  forall (s : LoopState) (k : nat),
    step s = Z.of_nat k ->
    history_after a k (state s) ->
    exists s',
      train_epochs model loss_fn config total_steps train_dataloader epochs s
        = Ok s'
      /\ step s' = Z.of_nat (k + epochs * List.length train_dataloader)
      /\ history_after a (k + epochs * List.length train_dataloader) (state s').
Proof.
  induction epochs as [| epochs IH]; intros s k Hstep Hk.
  - exists s. simpl. rewrite Nat.add_0_r. auto.
  - destruct (train_epoch_ok train_dataloader (incl_refl _) s k Hstep Hk)
      as (s1 & Hrun & Hstep1 & Hk1).
    destruct (IH s1 _ Hstep1 Hk1) as (s' & Hrun' & Hstep' & Hk').
    exists s'. simpl. rewrite Hrun. simpl bind.
    replace (k + (List.length train_dataloader
                  + epochs * List.length train_dataloader))%nat
      with (k + List.length train_dataloader
            + epochs * List.length train_dataloader)%nat by lia.
    auto.
Qed.

End Loop.

(** C10: the step counter starts at zero and is tested before it is
    incremented, so the first batch of a run already applies the optimizer and
    zeroes the gradients, whatever [accumulation_steps] is: the first update
    comes from one backward pass, every later update from
    [accumulation_steps] backward passes. *)
Theorem train_first_window
  (train_dataloader : list Targets) (loss_fn : ComputeLoss) (config : Config.t) :
  (forall st data, In data train_dataloader ->
     exists l inner, loss_fn (model st data) data = Ok (Scalar l, inner)) ->
  (0 < Config.accumulation_steps config)%Z ->
  Config.log_interval config <> 0%Z ->
  Config.checkpoint_interval config <> 0%Z ->
  (forall data st, In data train_dataloader ->
     exists l inner st',
      train_batch model data 0 loss_fn config true false st
        = Ok (l, inner, st')
      /\ optimizer_steps st' = optimizer_steps st ++ [S (accumulated st)]
      /\ accumulated st' = 0%nat)
  /\ exists s,
      train model train_dataloader loss_fn config = Ok s
      /\ match (Z.to_nat (Config.num_epochs config)
                * List.length train_dataloader)%nat with
         | O => optimizer_steps (state s) = []
         | S m =>
             optimizer_steps (state s)
             = 1%nat :: repeat (Z.to_nat (Config.accumulation_steps config))
                          (m / Z.to_nat (Config.accumulation_steps config))
             /\ accumulated (state s)
                = (m mod Z.to_nat (Config.accumulation_steps config))%nat
         end.
Proof.
  intros Hloss Hacc Hlog Hckpt. split.
  - intros data st Hin.
    destruct (Hloss st data Hin) as (l & inner & Hl).
    destruct (train_batch_ok data 0 loss_fn config st l inner Hl)
      as (st' & Hrun & _ & Hopt & _); [lia |].
    exists l, inner, st'. split; [exact Hrun |].
    apply Hopt. apply Z.mod_0_l. lia.
  - unfold train.
    destruct (train_epochs_ok loss_fn config
                (Z.of_nat (List.length train_dataloader)
                 * Config.num_epochs config)%Z
                train_dataloader Hloss Hacc Hlog Hckpt
                (Z.to_nat (Config.num_epochs config)) initial 0%nat)
      as (s & Hrun & _ & Hk).
    + reflexivity.
    + simpl. auto.
    + exists s. split; [exact Hrun |].
      simpl in Hk.
      destruct (Z.to_nat (Config.num_epochs config)
                * List.length train_dataloader)%nat as [| m].
      * apply Hk.
      * destruct Hk as (w & r & Hm & Hr & Hs & Hg).
        assert (Hw : w = (m / Z.to_nat (Config.accumulation_steps config))%nat).
        { apply Nat.div_unique with r; lia. }
        assert (Hr' : r = (m mod Z.to_nat (Config.accumulation_steps config))%nat).
        { apply Nat.mod_unique with w; lia. }
        rewrite <- Hw, <- Hr'. auto.
Qed.

End Training.

End PipelineFacts.

(** ** Lists as tensors *)

Module TorchFacts.

Import NumFacts.

Lemma same_size_iff {A B : Type} (l1 : list A) (l2 : list B) :
  same_size l1 l2 = true <-> List.length l1 = List.length l2.
Proof. unfold same_size. apply Nat.eqb_eq. Qed.

Lemma aligned_length {A B : Type} (m1 : list (list A)) (m2 : list (list B)) :
  aligned m1 m2 = true -> List.length m1 = List.length m2.
Proof.
  revert m2. induction m1 as [| r1 m1 IH]; intros [| r2 m2]; simpl;
    try discriminate; auto.
  intros H. apply andb_true_iff in H. f_equal. now apply IH.
Qed.

Lemma map2_length {A B C : Type} (f : A -> B -> C) (l1 : list A) (l2 : list B) :
  List.length l1 = List.length l2 ->
  List.length (map2 f l1 l2) = List.length l1.
Proof.
  revert l2. induction l1 as [| a l1 IH]; intros [| b l2]; simpl;
    try discriminate; auto.
Qed.

Lemma select_length {A B : Type} (mask : list bool) (l1 : list A) (l2 : list B) :
  List.length l1 = List.length l2 ->
  List.length (select mask l1) = List.length (select mask l2).
Proof.
  revert l1 l2. induction mask as [| b mask IH]; intros [| a l1] [| c l2];
    simpl; try discriminate; auto.
  intros H. destruct b; simpl; auto.
Qed.

Lemma select_nil_r {A : Type} (mask : list bool) :
  select mask (@nil A) = [].
Proof. now destruct mask. Qed.

Lemma select_map {A B : Type} (f : A -> B) (mask : list bool) (l : list A) :
  select mask (map f l) = map f (select mask l).
Proof.
  revert l. induction mask as [| b mask IH]; intros [| a l]; simpl; auto.
  destruct b; simpl; now rewrite IH.
Qed.

Lemma select_map2 {A B C : Type} (f : A -> B -> C)
  (mask : list bool) (l1 : list A) (l2 : list B) :
  List.length l1 = List.length l2 ->
  select mask (map2 f l1 l2) = map2 f (select mask l1) (select mask l2).
Proof.
  revert l1 l2. induction mask as [| b mask IH]; intros [| a l1] [| c l2];
    simpl; try discriminate; auto.
  intros H. destruct b; simpl; rewrite IH; auto.
Qed.

(** Selecting with a mask, then with a second mask on what is left, is
    selecting with the conjunction of the two. *)
Lemma select_select {A : Type} (mask valid : list bool) (l : list A) :
  select (select mask valid) (select mask l) = select (map2 andb valid mask) l.
Proof.
  revert valid l. induction mask as [| b mask IH]; intros [| v valid] [| a l];
    rewrite ?select_nil_r; simpl; auto.
  destruct b; simpl.
  - rewrite andb_true_r. destruct v; now rewrite IH.
  - rewrite andb_false_r. apply IH.
Qed.

Lemma select_none {A : Type} (mask : list bool) (l : list A) :
  Forall (fun b => b = false) mask -> select mask l = [].
Proof.
  intros H. revert l. induction H as [| b mask Hb _ IH]; intros [| a l];
    simpl; auto.
  subst b. apply IH.
Qed.

Lemma aligned_select {A B : Type} (mask : list bool)
  (m1 : list (list A)) (m2 : list (list B)) :
  aligned m1 m2 = true -> aligned (select mask m1) (select mask m2) = true.
Proof.
  revert m1 m2. induction mask as [| b mask IH]; intros [| r1 m1] [| r2 m2];
    simpl; try discriminate; auto.
  intros H. apply andb_true_iff in H. destruct H as [H1 H2].
  destruct b; simpl; auto. rewrite H1. simpl. auto.
Qed.






Lemma set_at_length {A : Type} (i : nat) (x : A) (l : list A) :
  List.length (set_at i x l) = List.length l.
Proof.
  revert l. induction i as [| i IH]; intros [| a l]; simpl; auto.
Qed.


Lemma index_mask_ok {A : Type} (rows : list A) (mask : list bool) :
  List.length mask = List.length rows ->
  index_mask rows mask = Ok (select mask rows).
Proof.
  intros H. unfold index_mask.
  now rewrite (proj2 (same_size_iff mask rows) H).
Qed.

(** Sums. *)
Lemma vsum_cons (x : ext) (v : vec) : vsum (x :: v) = eadd x (vsum v).
Proof. reflexivity. Qed.

Lemma vsum_finite (v : vec) : Forall finite v -> finite (vsum v).
Proof.
  induction 1 as [| x v Hx _ IH]; [exact I |].
  rewrite vsum_cons. now apply finite_eadd.
Qed.

Lemma vsum_eqv (u v : vec) : Forall2 eqv u v -> eqv (vsum u) (vsum v).
Proof.
  induction 1 as [| x y u v Hxy _ IH].
  - apply eqv_refl.
  - rewrite !vsum_cons. now apply eadd_eqv.
Qed.

Lemma vsum_zeros (n : nat) : eqv (vsum (repeat (Fin 0) n)) (Fin 0).
Proof.
  induction n as [| n IH].
  - simpl. reflexivity.
  - change (repeat (Fin 0) (S n)) with (Fin 0 :: repeat (Fin 0) n).
    rewrite vsum_cons.
    apply eqv_trans with (eadd (Fin 0) (Fin 0)).
    + apply eadd_eqv; [apply eqv_refl | exact IH].
    + simpl. ring.
Qed.

(** Zeros appended to a tensor do not change its sum. *)
Lemma vsum_app_zeros (v : vec) (n : nat) :
  eqv (vsum (v ++ repeat (Fin 0) n)) (vsum v).
Proof.
  induction v as [| x v IH]; simpl app.
  - apply vsum_zeros.
  - rewrite !vsum_cons. apply eadd_eqv; [apply eqv_refl | exact IH].
Qed.

Lemma Forall2_eqv_refl (v : vec) : Forall2 eqv v v.
Proof. induction v; constructor; auto using eqv_refl. Qed.

Lemma of_nat_pos (n : nat) : (0 < n)%nat -> exists q, of_nat n = Fin q /\ 0 < q.
Proof.
  intros H. unfold of_nat, of_Z. eexists. split; [reflexivity |].
  replace 0 with (inject_Z 0) by reflexivity.
  rewrite <- Zlt_Qlt. lia.
Qed.

Lemma vmean_finite (v : vec) :
  v <> [] -> Forall finite v -> finite (vmean v).
Proof.
  intros Hne Hv. unfold vmean.
  destruct (finite_is_Fin _ (vsum_finite v Hv)) as [s Hs]. rewrite Hs.
  destruct (of_nat_pos (List.length v)) as (q & Hq & Hpos).
  - destruct v; [contradiction | simpl; lia].
  - rewrite Hq, ediv_Fin; [exact I | lra].
Qed.

Lemma vmean_eqv (u v : vec) : Forall2 eqv u v -> eqv (vmean u) (vmean v).
Proof.
  intros H. unfold vmean.
  rewrite (Forall2_length H).
  apply ediv_eqv; [now apply vsum_eqv | apply eqv_refl].
Qed.

End TorchFacts.

(** ** The losses *)

Module LossFacts.

Import NumFacts TorchFacts Losses.

Lemma apply_reduction_eqv (u v : vec) (reduction : string) :
  Forall2 eqv u v ->
  result_eqv (apply_reduction u reduction) (apply_reduction v reduction).
Proof.
  intros H. unfold apply_reduction.
  destruct (String.eqb reduction "none"); [exact H |].
  rewrite (Forall2_length H).
  assert (H' : Forall2 eqv
                 (if (List.length v =? 0)%nat then [Fin 0] else u)
                 (if (List.length v =? 0)%nat then [Fin 0] else v)).
  { destruct (List.length v =? 0)%nat; auto using Forall2_eqv_refl. }
  destruct (String.eqb reduction "mean"); [now apply vmean_eqv |].
  destruct (String.eqb reduction "sum"); [now apply vsum_eqv |].
  reflexivity.
Qed.

Lemma apply_reduction_finite (v : vec) (reduction : string) :
  Forall finite v ->
  match apply_reduction v reduction with
  | Ok t => tensor_finite t
  | Raise _ => True
  end.
Proof.
  intros H. unfold apply_reduction.
  destruct (String.eqb reduction "none"); [exact H |].
  assert (H' : Forall finite (if (List.length v =? 0)%nat then [Fin 0] else v)
               /\ (if (List.length v =? 0)%nat then [Fin 0] else v) <> []).
  { destruct v; simpl; split; auto; try discriminate.
    constructor; [exact I | constructor]. }
  destruct H' as [Hf Hne].
  destruct (String.eqb reduction "mean"); [now apply vmean_finite |].
  destruct (String.eqb reduction "sum"); [now apply vsum_finite |].
  exact I.
Qed.

Section WithKernels.

Context {K : Kernels}.

Lemma generative_per_sample_rows (logits : list (list vec)) :
  forall labels : list (list Z),
    generative_per_sample (map2 (map2 cross_entropy_at) logits labels) labels
    = map2 generative_sample logits labels.
Proof.
  unfold generative_per_sample.
  induction logits as [| row logits IH]; intros [| lrow labels]; simpl; auto.
  f_equal. apply IH.
Qed.

(** Without a mask, on aligned tensors, the loss reduces the losses of the
    examples. *)
Lemma generative_loss_unmasked logits labels reduction :
  aligned logits labels = true ->
  generative_loss logits labels reduction None
  = apply_reduction (map2 generative_sample logits labels) reduction.
Proof.
  intros H. unfold generative_loss, cross_entropy_seq. simpl.
  rewrite H. simpl. now rewrite generative_per_sample_rows.
Qed.

Lemma n_tokens_pad (labels : list Z) (p : nat) :
  n_tokens (labels ++ repeat IGNORE_INDEX p) = n_tokens labels.
Proof.
  unfold n_tokens. rewrite filter_app.
  assert (E : filter (fun t => negb (t =? IGNORE_INDEX)%Z)
                (repeat IGNORE_INDEX p) = []).
  { induction p; simpl; auto. }
  now rewrite E, app_nil_r.
Qed.

Lemma cross_entropy_pad (logits pad : list vec) (labels : list Z) (p : nat) :
  List.length logits = List.length labels ->
  List.length pad = p ->
  map2 cross_entropy_at (logits ++ pad) (labels ++ repeat IGNORE_INDEX p)
  = map2 cross_entropy_at logits labels ++ repeat (Fin 0) p.
Proof.
  intros Hlen Hp. subst p. revert labels Hlen.
  induction logits as [| x logits IH]; intros [| t labels]; simpl;
    try discriminate.
  - intros _. induction pad; simpl; auto. now f_equal.
  - intros Hlen. f_equal. apply IH. lia.
Qed.

(** Padding an example leaves its loss as it is. *)
Lemma generative_sample_pad (logits pad : list vec) (labels : list Z) (p : nat) :
  List.length logits = List.length labels ->
  List.length pad = p ->
  eqv (generative_sample logits labels)
      (generative_sample (logits ++ pad) (labels ++ repeat IGNORE_INDEX p)).
Proof.
  intros Hlen Hp. unfold generative_sample.
  rewrite n_tokens_pad, (cross_entropy_pad _ _ _ _ Hlen Hp).
  apply ediv_eqv; [| apply eqv_refl].
  apply eqv_sym, vsum_app_zeros.
Qed.

(** *** The rationale loss as a reduction over the surviving examples *)

Lemma map3_length {A B C D : Type} (f : A -> B -> C -> D)
  (l1 : list A) (l2 : list B) (l3 : list C) :
  List.length l1 = List.length l2 -> List.length l2 = List.length l3 ->
  List.length (map3 f l1 l2 l3) = List.length l1.
Proof.
  revert l2 l3. induction l1 as [| a l1 IH]; intros [| b l2] [| c l3]; simpl;
    try discriminate; auto.
Qed.

Lemma rationale_weights_length (labels passage_mask : vec) :
  List.length labels = List.length passage_mask ->
  List.length (rationale_weights labels passage_mask) = List.length labels.
Proof.
  intros H. unfold rationale_weights.
  rewrite length_map, map2_length; rewrite !length_map; auto.
Qed.

Lemma map_map2 {A B C D : Type} (g : C -> D) (f : A -> B -> C)
  (l1 : list A) (l2 : list B) :
  map g (map2 f l1 l2) = map2 (fun a b => g (f a b)) l1 l2.
Proof.
  revert l2. induction l1 as [| a l1 IH]; intros [| b l2]; simpl; auto.
  now rewrite IH.
Qed.

(** The guard of the weighted cross-entropy holds on aligned examples. *)
Lemma rationale_bce_aligned (logits labels passage_mask : mat) :
  aligned labels passage_mask = true ->
  aligned logits labels = true ->
  let labels' := map2 (map2 emul) labels passage_mask in
  aligned logits labels' = true
  /\ aligned labels' (map2 rationale_weights labels' passage_mask) = true.
Proof.
  revert labels passage_mask.
  induction logits as [| g logits IH]; intros [| l labels] [| p pm]; simpl;
    try discriminate; auto.
  intros H1 H2.
  apply andb_true_iff in H1. destruct H1 as [Hlp H1].
  apply andb_true_iff in H2. destruct H2 as [Hgl H2].
  apply same_size_iff in Hlp, Hgl.
  destruct (IH labels pm H1 H2) as [IH1 IH2].
  rewrite IH1, IH2, !andb_true_r. split; apply same_size_iff.
  - rewrite map2_length; auto.
  - rewrite rationale_weights_length; rewrite map2_length; auto.
Qed.

Lemma rationale_rows (logits labels passage_mask : mat) :
  let labels' := map2 (map2 emul) labels passage_mask in
  map vsum
    (map3 (map3 (fun x y w => emul (bce_with_logits_token x y) w))
       logits labels' (map2 rationale_weights labels' passage_mask))
  = map3 rationale_sample logits labels passage_mask.
Proof.
  revert labels passage_mask.
  induction logits as [| g logits IH]; intros [| l labels] [| p pm]; simpl;
    auto.
  f_equal. apply IH.
Qed.

Lemma surviving_length labels passage_mask max_rationale_length mask :
  aligned labels passage_mask = true ->
  match mask with
  | Some mask => same_size mask labels
  | None => true
  end = true ->
  List.length (surviving labels passage_mask max_rationale_length mask)
  = List.length labels.
Proof.
  intros H Hm. unfold surviving. apply aligned_length in H.
  destruct mask as [mask |].
  - apply same_size_iff in Hm. rewrite map2_length; rewrite map2_length; auto.
  - now rewrite map2_length.
Qed.

(** On well-shaped tensors the rationale loss is the reduction of the losses
    of the surviving examples. *)
Lemma rationale_loss_survivors
  logits labels passage_mask max_rationale_length reduction mask :
  rationale_shapes logits labels passage_mask mask = true ->
  let keep := surviving labels passage_mask max_rationale_length mask in
  rationale_loss logits labels passage_mask max_rationale_length reduction mask
  = apply_reduction
      (map3 rationale_sample (select keep logits) (select keep labels)
         (select keep passage_mask))
      reduction.
Proof.
  intros Hshape keep. unfold rationale_shapes in Hshape.
  apply andb_true_iff in Hshape. destruct Hshape as [Hshape Hmask].
  apply andb_true_iff in Hshape. destruct Hshape as [Hlp Hgl].
  pose proof (surviving_length labels passage_mask max_rationale_length mask
                Hlp Hmask) as Hkeep.
  pose proof (aligned_length _ _ Hlp) as Hlen_lp.
  pose proof (aligned_length _ _ Hgl) as Hlen_gl.
  unfold rationale_loss, mat_mul. rewrite Hlp. simpl bind.
  rewrite map_map2.
  assert (Hvalid :
    match mask with
    | Some mask =>
        vec_and
          (map2 (fun l p => valid_rationale max_rationale_length (map2 emul l p))
             labels passage_mask) mask
    | None =>
        Ok (map2 (fun l p => valid_rationale max_rationale_length (map2 emul l p))
              labels passage_mask)
    end = Ok keep).
  { unfold keep, surviving. destruct mask as [mask |]; [| reflexivity].
    unfold vec_and. apply same_size_iff in Hmask.
    rewrite (proj2 (same_size_iff _ mask)); [reflexivity |].
    rewrite map2_length; [symmetry; exact Hmask | exact Hlen_lp]. }
  rewrite Hvalid. simpl bind.
  assert (Hkeep' : List.length keep
                   = List.length (map2 (map2 emul) labels passage_mask)).
  { rewrite map2_length by exact Hlen_lp. exact Hkeep. }
  rewrite (index_mask_ok _ keep Hkeep'). simpl bind.
  rewrite (index_mask_ok passage_mask keep)
    by (rewrite <- Hlen_lp; exact Hkeep).
  simpl bind.
  rewrite (index_mask_ok logits keep) by (rewrite Hlen_gl; exact Hkeep).
  simpl bind.
  rewrite select_map2 by exact Hlen_lp.
  destruct (rationale_bce_aligned (select keep logits) (select keep labels)
              (select keep passage_mask)) as [Ha Hb];
    try (now apply aligned_select).
  unfold binary_cross_entropy_with_logits.
  match goal with
  | |- context [if ?c then _ else _] =>
      replace c with true
        by (symmetry; apply andb_true_iff; split; [exact Ha | exact Hb])
  end.
  simpl bind.
  now rewrite rationale_rows.
Qed.

(** *** Excluded examples *)





(** *** The weights of the rationale loss are finite *)

Lemma Forall_map2 {A B C : Type} (P : A -> Prop) (Q : B -> Prop) (R : C -> Prop)
  (f : A -> B -> C) (l1 : list A) (l2 : list B) :
  (forall a b, P a -> Q b -> R (f a b)) ->
  Forall P l1 -> Forall Q l2 -> Forall R (map2 f l1 l2).
Proof.
  intros Hf H1. revert l2.
  induction H1 as [| a l1 Ha _ IH]; intros l2 H2; simpl; auto.
  destruct H2 as [| b l2 Hb H2]; simpl; auto.
Qed.



Lemma epsilon_pos : 0 < 1 # 10000000.
Proof. reflexivity. Qed.

(** A clamped finite value is finite and at least the floor. *)
Lemma clamp_epsilon (q : Q) :
  exists c, clamp_min _EPSILON (Fin q) = Fin c /\ (1 # 10000000) <= c
            /\ ((1 # 10000000) <= q -> c = q).
Proof.
  unfold _EPSILON. rewrite clamp_min_Fin. eexists. split; [reflexivity |].
  split; [apply clamp_min_ge |].
  intros H. now rewrite Qle_bool_true.
Qed.

(** A weight that the division made infinite is rewritten to zero. *)
Lemma rewritten_weight_finite (t d : Q) :
  0 < t ->
  finite (let w := ediv (Fin t) (Fin d) in if eneqb w PInf then w else Fin 0).
Proof.
  intros Ht. cbv zeta. rewrite ediv_pos by exact Ht.
  destruct (Qeq_bool d 0); simpl; exact I.
Qed.

Lemma rationale_weights_finite (labels passage_mask : vec) :
  Forall finite labels -> Forall finite passage_mask ->
  Forall finite (rationale_weights labels passage_mask).
Proof.
  intros Hl Hp. unfold rationale_weights.
  destruct (finite_is_Fin _ (vsum_finite _ Hp)) as [t Ht].
  destruct (finite_is_Fin _ (vsum_finite _ Hl)) as [k Hk].
  rewrite Ht, Hk.
  destruct (clamp_epsilon t) as (t' & -> & Ht' & _).
  pose proof epsilon_pos as Heps.
  assert (H3 : Forall finite
    (map2 emul
       (map (fun w => if eneqb w PInf then w else Fin 0)
          (map (fun l => if eeqb l (Fin 1) then ediv (Fin t') (Fin k)
                         else ediv (Fin t') (esub (Fin t) (Fin k))) labels))
       passage_mask)).
  { apply Forall_map2 with (P := finite) (Q := finite);
      [apply finite_emul | | exact Hp].
    rewrite map_map. apply Forall_map. apply Forall_forall. intros l _.
    destruct (eeqb l (Fin 1)); apply rewritten_weight_finite; lra. }
  destruct (finite_is_Fin _ (vsum_finite _ H3)) as [s Hs]. rewrite Hs.
  destruct (clamp_epsilon s) as (c & -> & Hc & _).
  apply Forall_map. revert H3. apply Forall_impl. intros w Hw.
  destruct (finite_is_Fin _ Hw) as [q ->].
  rewrite ediv_Fin; [exact I | lra].
Qed.


Lemma apply_reduction_valid (v : vec) (reduction : string) :
  reduction = "none"%string \/ reduction = "mean"%string
  \/ reduction = "sum"%string ->
  exists t, apply_reduction v reduction = Ok t.
Proof.
  intros [-> | [-> | ->]]; unfold apply_reduction; simpl; eexists; reflexivity.
Qed.



(** *** The weights of the rationale loss balance the two classes *)





Lemma Qnat_pos (n : nat) : (0 < n)%nat -> 1 <= inject_Z (Z.of_nat n).
Proof.
  intros H. replace 1 with (inject_Z 1) by reflexivity.
  rewrite <- Zle_Qle. lia.
Qed.





(** *** Masked losses are the losses of the selected examples *)

Lemma rationale_loss_masked
  logits labels passage_mask max_rationale_length reduction mask :
  rationale_shapes logits labels passage_mask (Some mask) = true ->
  rationale_shapes (select mask logits) (select mask labels)
    (select mask passage_mask) None = true
  /\ rationale_loss logits labels passage_mask max_rationale_length reduction
       (Some mask)
     = rationale_loss (select mask logits) (select mask labels)
         (select mask passage_mask) max_rationale_length reduction None.
Proof.
  intros Hshape.
  assert (Hshape' : rationale_shapes (select mask logits) (select mask labels)
                      (select mask passage_mask) None = true).
  { unfold rationale_shapes, rationale_shapes_mask in *.
    apply andb_true_iff in Hshape. destruct Hshape as [Hshape _].
    apply andb_true_iff in Hshape. destruct Hshape as [H1 H2].
    now rewrite !aligned_select. }
  split; [exact Hshape' |].
  rewrite !rationale_loss_survivors by assumption.
  unfold rationale_shapes in Hshape.
  apply andb_true_iff in Hshape. destruct Hshape as [Hshape _].
  apply andb_true_iff in Hshape. destruct Hshape as [H1 _].
  unfold surviving.
  rewrite <- select_map2 by (now apply aligned_length).
  now rewrite !select_select.
Qed.

Lemma apply_reduction_mean (v : vec) :
  apply_reduction v "mean"
  = Ok (Scalar (vmean (if (List.length v =? 0)%nat then [Fin 0] else v))).
Proof. reflexivity. Qed.

Lemma yes_no_gen_loss_mean (logits : mat) (labels : list Z) :
  same_size logits labels = true ->
  exists c,
    yes_no_gen_loss logits labels None "mean" None = Ok (Scalar c).
Proof.
  intros H. unfold yes_no_gen_loss, categorical_focal_loss_with_logits,
    cross_entropy.
  simpl. rewrite H. simpl. eexists. reflexivity.
Qed.

Lemma rationale_loss_mean
  logits labels passage_mask max_rationale_length mask :
  rationale_shapes logits labels passage_mask mask = true ->
  exists r,
    rationale_loss logits labels passage_mask max_rationale_length "mean" mask
    = Ok (Scalar r).
Proof.
  intros H. rewrite rationale_loss_survivors by exact H.
  rewrite apply_reduction_mean. eexists. reflexivity.
Qed.

Lemma generative_loss_mean (logits : list (list vec)) (labels : list (list Z)) :
  aligned logits labels = true ->
  exists g, generative_loss logits labels "mean" None = Ok (Scalar g).
Proof.
  intros H. rewrite generative_loss_unmasked by exact H.
  rewrite apply_reduction_mean. eexists. reflexivity.
Qed.

Lemma aligned_pad {A : Type} (p : nat) (logits logits' : list (list A)) :
  Forall2 (extends_by p) logits logits' ->
  forall labels : list (list Z),
    aligned logits' (map (fun row => row ++ repeat IGNORE_INDEX p) labels)
    = aligned logits labels.
Proof.
  induction 1 as [| row row' logits logits' (pad & Hp & ->) _ IH];
    intros [| lrow labels]; simpl; auto.
  rewrite IH. f_equal. unfold same_size.
  rewrite !length_app, repeat_length, Hp.
  destruct (Nat.eqb_spec (List.length row) (List.length lrow)) as [E | E].
  - apply Nat.eqb_eq. lia.
  - apply Nat.eqb_neq. lia.
Qed.

Lemma generative_rows_pad (p : nat) (logits logits' : list (list vec)) :
  Forall2 (extends_by p) logits logits' ->
  forall labels : list (list Z),
    aligned logits labels = true ->
    Forall2 eqv
      (map2 generative_sample logits labels)
      (map2 generative_sample logits'
         (map (fun row => row ++ repeat IGNORE_INDEX p) labels)).
Proof.
  induction 1 as [| row row' logits logits' (pad & Hp & ->) _ IH];
    intros [| lrow labels]; simpl; try discriminate; auto.
  intros H. apply andb_true_iff in H. destruct H as [Hrow Hrest].
  constructor; [| now apply IH].
  apply generative_sample_pad; auto. now apply same_size_iff.
Qed.

Lemma select_Forall2 {A B : Type} (R : A -> B -> Prop) (mask : list bool)
  (l1 : list A) (l2 : list B) :
  Forall2 R l1 l2 -> Forall2 R (select mask l1) (select mask l2).
Proof.
  intros H. revert mask.
  induction H as [| a b l1 l2 Hab _ IH]; intros [| m mask]; simpl; auto.
  destruct m; auto.
Qed.

(** With a mask, the loss is the loss of the selected examples. *)
Lemma generative_loss_masked logits labels reduction mask :
  generative_loss logits labels reduction (Some mask)
  = if same_size mask logits then
      if same_size mask labels then
        generative_loss (select mask logits) (select mask labels) reduction None
      else Raise IndexError
    else Raise IndexError.
Proof.
  unfold generative_loss, index_mask.
  destruct (same_size mask logits); [| reflexivity].
  destruct (same_size mask labels); reflexivity.
Qed.

Lemma generative_loss_padding_unmasked p logits logits' labels reduction :
  Forall2 (extends_by p) logits logits' ->
  result_eqv
    (generative_loss logits labels reduction None)
    (generative_loss logits'
       (map (fun row => row ++ repeat IGNORE_INDEX p) labels) reduction None).
Proof.
  intros H.
  destruct (aligned logits labels) eqn:E.
  - rewrite !generative_loss_unmasked; auto.
    + apply apply_reduction_eqv. now apply generative_rows_pad.
    + now rewrite (aligned_pad p logits logits' H).
  - unfold generative_loss, cross_entropy_seq. simpl.
    rewrite (aligned_pad p logits logits' H), E. reflexivity.
Qed.

(** C6: the generative loss does not depend on the padding of the targets:
    with [p] more positions at the end of every sequence, ignore-valued in the
    labels and arbitrary in the logits, the loss of every example, and so the
    reduced loss, is the same.  The ignored positions add zero to the summed
    loss and are not counted in the denominator. *)
Theorem generative_loss_padding p logits logits' labels reduction mask :
  Forall2 (extends_by p) logits logits' ->
  result_eqv
    (generative_loss logits labels reduction mask)
    (generative_loss logits'
       (map (fun row => row ++ repeat IGNORE_INDEX p) labels) reduction mask)
  /\ (forall row : list Z,
        n_tokens (row ++ repeat IGNORE_INDEX p) = n_tokens row)
  /\ (forall (x : vec), cross_entropy_at x IGNORE_INDEX = Fin 0).
Proof.
  intros H. split; [| split].
  - destruct mask as [mask |].
    + rewrite !generative_loss_masked.
      unfold same_size. rewrite length_map, <- (Forall2_length H).
      destruct (List.length mask =? List.length logits)%nat; [| reflexivity].
      destruct (List.length mask =? List.length labels)%nat; [| reflexivity].
      rewrite select_map.
      apply generative_loss_padding_unmasked. now apply select_Forall2.
    + now apply generative_loss_padding_unmasked.
  - intros row. apply n_tokens_pad.
  - intros x. reflexivity.
Qed.

(** C8: an example whose targets are all the ignore value has the floor
    [_EPSILON] as its denominator, and its loss is the finite value zero. *)
Theorem generative_loss_all_ignored logits labels :
  aligned logits labels = true ->
  exists v,
    generative_loss logits labels "none" None = Ok (Tensor v)
    /\ Forall2
         (fun row x =>
            Forall (fun t => t = IGNORE_INDEX) row ->
            clamp_min _EPSILON (n_tokens row) = _EPSILON
            /\ exists q, x = Fin q /\ q == 0)
         labels v.
Proof.
  intros H. rewrite generative_loss_unmasked by exact H.
  eexists. split; [reflexivity |].
  revert labels H.
  induction logits as [| lrow logits IH]; intros [| row labels];
    cbn [aligned map2]; try discriminate; auto.
  intros H. apply andb_true_iff in H. destruct H as [Hrow Hrest].
  constructor; [| now apply IH].
  intros Hign.
  assert (Hn : n_tokens row = Fin 0).
  { unfold n_tokens.
    replace (filter (fun t => negb (t =? IGNORE_INDEX)%Z) row) with (@nil Z);
      [reflexivity |].
    clear - Hign. induction Hign as [| t row -> _ IH]; simpl; auto. }
  unfold generative_sample. rewrite Hn.
  split; [reflexivity |].
  assert (Hs : exists s, vsum (map2 cross_entropy_at lrow row) = Fin s /\ s == 0).
  { clear - Hign. revert lrow.
    induction Hign as [| t row -> _ IH]; intros [| x lrow]; cbn [map2];
      try (exists 0; split; reflexivity).
    destruct (IH lrow) as (s & Hs & Hz).
    rewrite vsum_cons, Hs.
    exists (0 + s). split; [reflexivity | lra]. }
  destruct Hs as (s & -> & Hz).
  exists (s / (1 # 10000000)). split; [reflexivity |].
  rewrite Hz. reflexivity.
Qed.

End WithKernels.

End LossFacts.

(** ** The composite loss *)

Module CompositeFacts.

Import NumFacts TorchFacts Losses LossFacts LossObjects.

Section WithKernels.

Context {K : Kernels}.

Lemma well_shaped_parts (outputs : Outputs) (targets : Targets) :
  well_shaped outputs targets = true ->
  let is_generative := map negb (yes_no targets) in
  rationale_shapes (encoder_rationale_logits outputs)
    (rationale_labels targets) (passage_mask targets) (Some is_generative)
  = true
  /\ same_size is_generative (logits outputs) = true
  /\ same_size is_generative (labels targets) = true
  /\ aligned (logits outputs) (labels targets) = true
  /\ same_size (encoder_yng_logits outputs) (yng_label targets) = true.
Proof.
  intros Hshape. unfold well_shaped in Hshape.
  apply andb_true_iff in Hshape. destruct Hshape as [Hshape Hyng].
  apply andb_true_iff in Hshape. destruct Hshape as [Hshape Hgl].
  apply andb_true_iff in Hshape. destruct Hshape as [Hshape Hml].
  apply andb_true_iff in Hshape. destruct Hshape as [Hshape Hmg].
  unfold same_size in *. rewrite !length_map. auto.
Qed.

(** The three terms that [forward] computes, with the mask that it hands to
    the rationale and generative losses, and its result. *)
Lemma forward_components
  max_rationale_length w_c w_r w_g self outputs targets :
  EncoderDecoderLoss_init max_rationale_length w_c w_r w_g = Ok self ->
  well_shaped outputs targets = true ->
  let is_generative := map negb (yes_no targets) in
  exists c r g,
    yes_no_gen_loss (encoder_yng_logits outputs) (yng_label targets)
      None "mean" None = Ok (Scalar c)
    /\ rationale_loss (encoder_rationale_logits outputs)
         (rationale_labels targets) (passage_mask targets)
         max_rationale_length "mean" (Some is_generative) = Ok (Scalar r)
    /\ generative_loss (logits outputs) (labels targets) "mean"
         (Some is_generative) = Ok (Scalar g)
    /\ forward self outputs targets
       = Ok (Scalar (eadd (eadd (emul w_c c) (emul w_r r)) (emul w_g g)),
             [("yng_loss"%string, c);
              ("rationale_loss"%string, r);
              ("generative_loss"%string, g)]).
Proof.
  intros Hinit Hshape is_generative.
  injection Hinit as <-.
  destruct (well_shaped_parts outputs targets Hshape)
    as (Hrat & Hmg & Hml & Hgl & Hyng).
  fold is_generative in Hrat, Hmg, Hml.
  destruct (yes_no_gen_loss_mean _ _ Hyng) as [c Hc].
  destruct (rationale_loss_mean _ _ _ max_rationale_length _ Hrat) as [r Hr].
  assert (Hg : exists g,
             generative_loss (logits outputs) (labels targets) "mean"
               (Some is_generative) = Ok (Scalar g)).
  { rewrite generative_loss_masked, Hmg, Hml.
    apply generative_loss_mean. now apply aligned_select. }
  destruct Hg as [g Hg].
  exists c, r, g. repeat (split; [assumption |]).
  unfold forward, EncoderDecoderYNGLoss_call, EncoderDecoderRationaleLoss_call,
    EncoderDecoderGenerativeLoss_call.
  cbn [yes_no_gen_loss_fn rationale_loss_fn generative_loss_fn yng_weight
       yng_reduction rat_max_rationale_length rat_reduction gen_reduction
       yng_loss_weight rationale_loss_weight generative_loss_weight].
  fold is_generative. rewrite Hc. cbn [bind].
  rewrite Hr. cbn [bind]. rewrite Hg. reflexivity.
Qed.

(** C1: the composite loss is the weighted sum of the classification loss of
    the whole batch and of the rationale and generative losses of the
    examples that [NOT yes_no] selects; the log holds the three terms without
    their weights. *)
Theorem forward_weighted_sum
  max_rationale_length w_c w_r w_g self outputs targets :
  EncoderDecoderLoss_init max_rationale_length w_c w_r w_g = Ok self ->
  well_shaped outputs targets = true ->
  let is_generative := map negb (yes_no targets) in
  exists c r g,
    yes_no_gen_loss (encoder_yng_logits outputs) (yng_label targets)
      None "mean" None = Ok (Scalar c)
    /\ rationale_loss
         (select is_generative (encoder_rationale_logits outputs))
         (select is_generative (rationale_labels targets))
         (select is_generative (passage_mask targets))
         max_rationale_length "mean" None = Ok (Scalar r)
    /\ generative_loss
         (select is_generative (logits outputs))
         (select is_generative (labels targets)) "mean" None = Ok (Scalar g)
    /\ forward self outputs targets
       = Ok (Scalar (eadd (eadd (emul w_c c) (emul w_r r)) (emul w_g g)),
             [("yng_loss"%string, c);
              ("rationale_loss"%string, r);
              ("generative_loss"%string, g)]).
Proof.
  intros Hinit Hshape is_generative.
  destruct (forward_components _ _ _ _ _ _ _ Hinit Hshape)
    as (c & r & g & Hc & Hr & Hg & Hfwd).
  destruct (well_shaped_parts outputs targets Hshape)
    as (Hrat & Hmg & Hml & _ & _).
  fold is_generative in Hr, Hg, Hrat, Hmg, Hml.
  exists c, r, g. split; [exact Hc |].
  split.
  - (* the rationale loss drops the masked examples before anything else *)
    destruct (rationale_loss_masked _ _ _ max_rationale_length "mean" _ Hrat)
      as [_ Hmasked].
    now rewrite <- Hmasked.
  - split; [| exact Hfwd].
    (* the generative loss indexes its inputs with the mask *)
    rewrite generative_loss_masked, Hmg, Hml in Hg. exact Hg.
Qed.

(** C5: when every example of the batch has [yes_no = True], the rationale
    and the generative terms are exactly zero, and the composite loss is the
    weighted classification loss. *)
Theorem forward_all_yes_no
  max_rationale_length w_c w_r w_g self outputs targets :
  EncoderDecoderLoss_init max_rationale_length w_c w_r w_g = Ok self ->
  well_shaped outputs targets = true ->
  Forall (fun b => b = true) (yes_no targets) ->
  finite w_r -> finite w_g ->
  exists c total,
    yes_no_gen_loss (encoder_yng_logits outputs) (yng_label targets)
      None "mean" None = Ok (Scalar c)
    /\ forward self outputs targets
       = Ok (Scalar total,
             [("yng_loss"%string, c);
              ("rationale_loss"%string, Fin 0);
              ("generative_loss"%string, Fin 0)])
    /\ eqv total (emul w_c c).
Proof.
  intros Hinit Hshape Hall Hr Hg.
  destruct (forward_components _ _ _ _ _ _ _ Hinit Hshape)
    as (c & r & g & Hc & Hrat & Hgen & Hfwd).
  destruct (well_shaped_parts outputs targets Hshape)
    as (Hshapes & Hmg & Hml & _ & _).
  (* the mask selects no example *)
  assert (Hnone : forall A (l : list A),
            select (map negb (yes_no targets)) l = []).
  { intros A l. apply select_none. apply Forall_map.
    revert Hall. apply Forall_impl. now intros b ->. }
  (* both masked losses reduce the empty tensor *)
  destruct (rationale_loss_masked _ _ _ max_rationale_length "mean" _ Hshapes)
    as [_ Hmasked].
  rewrite Hmasked in Hrat. repeat rewrite Hnone in Hrat.
  rewrite generative_loss_masked, Hmg, Hml in Hgen.
  repeat rewrite Hnone in Hgen.
  assert (Er : r = Fin 0).
  { cbv in Hrat. now injection Hrat as <-. }
  assert (Eg : g = Fin 0).
  { cbv in Hgen. now injection Hgen as <-. }
  subst r g.
  exists c. eexists. split; [exact Hc |]. split; [exact Hfwd |].
  destruct (finite_is_Fin _ Hr) as [qr ->].
  destruct (finite_is_Fin _ Hg) as [qg ->].
  cbn [emul].
  apply eqv_trans with (eadd (eadd (emul w_c c) (Fin 0)) (Fin 0)).
  - apply eadd_eqv; [apply eadd_eqv; [apply eqv_refl |] |]; simpl; ring.
  - apply eqv_trans with (eadd (emul w_c c) (Fin 0)); apply eadd_zero_r.
Qed.

End WithKernels.

End CompositeFacts.

(** ** Configuration errors *)

Module ConfigurationFacts.

Import Losses LossObjects Pipeline.



End ConfigurationFacts.

(** ** The properties on concrete batches *)

Module Instances.

Import NumFacts TorchFacts Losses LossFacts LossObjects CompositeFacts
  Pipeline PipelineFacts ConfigurationFacts Examples.



Lemma forward2 :
  exists c r g,
    forward (K := rational_kernels) loss2 outputs2 targets2
    = Ok (Scalar (eadd (eadd (emul (Fin 1) c) (emul (Fin (1 # 2)) r))
                    (emul (Fin 2) g)),
          [("yng_loss"%string, c);
           ("rationale_loss"%string, r);
           ("generative_loss"%string, g)]).
Proof.
  destruct (forward_components (K := rational_kernels)
              4 (Fin 1) (Fin (1 # 2)) (Fin 2) loss2 outputs2 targets2
              eq_refl eq_refl) as (c & r & g & _ & _ & _ & H).
  now exists c, r, g.
Qed.

Lemma forward_weighted_sum_witness :
  exists c r g,
    rationale_loss (K := rational_kernels)
      (select [false; true] (encoder_rationale_logits outputs2))
      (select [false; true] (rationale_labels targets2))
      (select [false; true] (passage_mask targets2)) 4 "mean" None
    = Ok (Scalar r)
    /\ forward (K := rational_kernels) loss2 outputs2 targets2
       = Ok (Scalar (eadd (eadd (emul (Fin 1) c) (emul (Fin (1 # 2)) r))
                       (emul (Fin 2) g)),
             [("yng_loss"%string, c);
              ("rationale_loss"%string, r);
              ("generative_loss"%string, g)]).
Proof.
  destruct (forward_weighted_sum (K := rational_kernels)
              4 (Fin 1) (Fin (1 # 2)) (Fin 2) loss2 outputs2 targets2
              eq_refl eq_refl) as (c & r & g & _ & Hr & _ & H).
  exists c, r, g. split; [exact Hr | exact H].
Defined.

Lemma train_batch_accumulation_witness :
  exists l inner st',
    train_batch model2 targets2 3 (forward (K := rational_kernels) loss2)
      config2 true false state0 = Ok (l, inner, st')
    /\ lr_scheduler_steps st' = 1%nat
    /\ teacher_force_steps st' = 1%nat
    /\ optimizer_steps st' = [1%nat]
    /\ accumulated st' = 0%nat.
Proof.
  destruct forward2 as (c & r & g & H).
  destruct (train_batch_accumulation model2 targets2 3
              (forward (K := rational_kernels) loss2) config2 state0 _ _ H)
    as (st' & Hrun & Hlr & Htf & Hopt & _); [discriminate |].
  eexists; eexists; exists st'.
  split; [exact Hrun |]. split; [exact Hlr |]. split; [exact Htf |].
  apply Hopt. reflexivity.
Defined.




Lemma forward_all_yes_no_witness :
  exists c total,
    forward (K := rational_kernels) loss2 outputs2 targets_yes_no
    = Ok (Scalar total,
          [("yng_loss"%string, c);
           ("rationale_loss"%string, Fin 0);
           ("generative_loss"%string, Fin 0)])
    /\ eqv total (emul (Fin 1) c).
Proof.
  destruct (forward_all_yes_no (K := rational_kernels)
              4 (Fin 1) (Fin (1 # 2)) (Fin 2) loss2 outputs2 targets_yes_no
              eq_refl eq_refl) as (c & total & _ & H & E).
  - repeat constructor.
  - exact I.
  - exact I.
  - exists c, total. split; [exact H | exact E].
Defined.

Lemma generative_loss_padding_witness :
  result_eqv
    (generative_loss (K := rational_kernels)
       (logits outputs2) (labels targets2) "none" None)
    (generative_loss (K := rational_kernels) padded_logits
       (map (fun row => row ++ repeat IGNORE_INDEX 2) (labels targets2))
       "none" None).
Proof.
  refine (proj1 (generative_loss_padding (K := rational_kernels) 2
                   (logits outputs2) padded_logits (labels targets2)
                   "none" None _)).
  repeat (constructor; [eexists; split; [| reflexivity]; reflexivity |]).
  constructor.
Defined.


Lemma generative_loss_all_ignored_witness :
  exists v,
    generative_loss (K := rational_kernels) (logits outputs2)
      [[-100; -100; -100; -100]; [2; 0; 1; 1]]%Z "none" None = Ok (Tensor v)
    /\ Forall2
         (fun row x =>
            Forall (fun t => t = IGNORE_INDEX) row ->
            clamp_min _EPSILON (n_tokens row) = _EPSILON
            /\ exists q, x = Fin q /\ q == 0)
         [[-100; -100; -100; -100]; [2; 0; 1; 1]]%Z v.
Proof.
  exact (generative_loss_all_ignored (K := rational_kernels) (logits outputs2)
           [[-100; -100; -100; -100]; [2; 0; 1; 1]]%Z eq_refl).
Defined.

Lemma train_first_window_witness :
  exists s,
    train model2 [targets2; targets2; targets2; targets2]
      (forward (K := rational_kernels) loss2) config2 = Ok s
    /\ optimizer_steps (state s) = [1; 3; 3]%nat
    /\ accumulated (state s) = 1%nat.
Proof.
  destruct (train_first_window model2 [targets2; targets2; targets2; targets2]
              (forward (K := rational_kernels) loss2) config2)
    as [_ (s & Hrun & Hs)].
  - intros st data Hin.
    assert (E : data = targets2).
    { simpl in Hin. decompose [or] Hin; auto; contradiction. }
    subst data. destruct forward2 as (c & r & g & H).
    eexists; eexists. exact H.
  - reflexivity.
  - discriminate.
  - discriminate.
  - exists s. split; [exact Hrun | exact Hs].
Defined.

End Instances.

(* ================================================================== *)
(** * Part III: further properties of the code *)
(* ================================================================== *)

(** ** The run of the training loop *)

Module RunFacts.

Import LossObjects Pipeline Run.

Section Training.

Variable model : TrainState -> Targets -> Outputs.

(** The state after a step that returns. *)
Lemma train_batch_effect data step loss_fn config st l inner :
  loss_fn (model st data) data = Ok (Scalar l, inner) ->
  Config.accumulation_steps config <> 0%Z ->
  train_batch model data step loss_fn config true false st
  = Ok (l, inner,
        let st1 := backward st in
        let st2 := match Config.gradient_clip config with
                   | Some _ => clip_grad_norm_ st1
                   | None => st1
                   end in
        let st3 := if (step mod Config.accumulation_steps config =? 0)%Z
                   then optimizer_zero_grad (optimizer_step st2) else st2 in
        teacher_force_scheduler_step (lr_scheduler_step st3)).
Proof.
  intros Hloss Ha. unfold train_batch, py_mod. simpl negb. cbv iota.
  rewrite Hloss. simpl bind.
  destruct (Z.eqb_spec (Config.accumulation_steps config) 0) as [E | _];
    [contradiction |].
  reflexivity.
Qed.

Lemma list_sum_snoc (l : list nat) (x : nat) :
  list_sum (l ++ [x]) = (list_sum l + x)%nat.
Proof. rewrite list_sum_app. simpl. lia. Qed.

Section Loop.

Variable loss_fn : ComputeLoss.
Variable config : Config.t.
Variable total_steps : Z.
Variable train_dataloader : list Targets.

Hypothesis loss_ok :
  forall st data, In data train_dataloader ->
    exists l inner, loss_fn (model st data) data = Ok (Scalar l, inner).
Hypothesis accumulation_nz : Config.accumulation_steps config <> 0%Z.
Hypothesis log_interval_nz : Config.log_interval config <> 0%Z.
Hypothesis checkpoint_interval_nz : Config.checkpoint_interval config <> 0%Z.

Lemma train_iteration_run (data : Targets) (s : LoopState) (k : nat) :
  In data train_dataloader ->
  after_iterations config total_steps k s ->
  exists s',
    train_iteration model loss_fn config total_steps data s = Ok s'
    /\ after_iterations config total_steps (S k) s'.
Proof.
  intros Hin (Hstep & Hlr & Htf & Hclip & Hsum & Hev & Hck).
  destruct (loss_ok (state s) data Hin) as (l & inner & Hloss).
  unfold train_iteration.
  rewrite (train_batch_effect data (step s) loss_fn config (state s) l inner
             Hloss accumulation_nz).
  simpl bind. unfold py_mod.
  destruct (Z.eqb_spec (Config.log_interval config) 0); [contradiction |].
  destruct (Z.eqb_spec (Config.checkpoint_interval config) 0);
    [contradiction |].
  simpl bind. eexists. split; [reflexivity |].
  unfold after_iterations. cbn [step state evaluations checkpoint_counter snd].
  rewrite Hstep.
  replace (Z.of_nat k + 1)%Z with (Z.of_nat (S k)) by lia.
  cbn [due_count]. rewrite <- Hev, <- Hck.
  repeat split.
  - destruct (Config.gradient_clip config),
      (Z.of_nat k mod Config.accumulation_steps config =? 0)%Z; simpl; lia.
  - destruct (Config.gradient_clip config),
      (Z.of_nat k mod Config.accumulation_steps config =? 0)%Z; simpl; lia.
  - destruct (Config.gradient_clip config),
      (Z.of_nat k mod Config.accumulation_steps config =? 0)%Z; simpl; lia.
  - destruct (Config.gradient_clip config),
      (Z.of_nat k mod Config.accumulation_steps config =? 0)%Z; simpl;
      rewrite ?list_sum_snoc; lia.
  - destruct ((Z.of_nat (S k) mod Config.log_interval config =? 0)
              || (Z.of_nat (S k) =? total_steps))%Z; lia.
  - destruct ((Z.of_nat (S k) mod Config.checkpoint_interval config =? 0)
              || (Z.of_nat (S k) =? total_steps))%Z; lia.
Qed.

Lemma train_epoch_run (batches : list Targets) :
  incl batches train_dataloader ->
  forall (s : LoopState) (k : nat),
    after_iterations config total_steps k s ->
    exists s',
      train_epoch model loss_fn config total_steps batches s = Ok s'
      /\ after_iterations config total_steps (k + List.length batches) s'.
Proof.
  induction batches as [| data rest IH]; intros Hincl s k Hk.
  - exists s. simpl. rewrite Nat.add_0_r. auto.
  - destruct (train_iteration_run data s k) as (s1 & Hrun & Hk1); auto.
    { apply Hincl. now left. }
    assert (Hrest : incl rest train_dataloader).
    { intros x Hx. apply Hincl. now right. }
    destruct (IH Hrest s1 (S k) Hk1) as (s' & Hrun' & Hk').
    exists s'. simpl. rewrite Hrun. simpl bind.
    replace (k + S (List.length rest))%nat with (S k + List.length rest)%nat
      by lia.
    auto.
Qed.

Lemma train_epochs_run (epochs : nat) :
  forall (s : LoopState) (k : nat),
    after_iterations config total_steps k s ->
    exists s',
      train_epochs model loss_fn config total_steps train_dataloader epochs s
      = Ok s'
      /\ after_iterations config total_steps
           (k + epochs * List.length train_dataloader) s'.
Proof.
  induction epochs as [| epochs IH]; intros s k Hk.
  - exists s. simpl. rewrite Nat.add_0_r. auto.
  - destruct (train_epoch_run train_dataloader (incl_refl _) s k Hk)
      as (s1 & Hrun & Hk1).
    destruct (IH s1 _ Hk1) as (s' & Hrun' & Hk').
    exists s'. simpl. rewrite Hrun. simpl bind.
    replace (k + (List.length train_dataloader
                  + epochs * List.length train_dataloader))%nat
      with (k + List.length train_dataloader
            + epochs * List.length train_dataloader)%nat by lia.
    auto.
Qed.

End Loop.

(** A run whose batches all have a loss returns, in the state of
    [after_iterations] for the number of its steps. *)
Lemma train_run
  (train_dataloader : list Targets) (loss_fn : ComputeLoss) (config : Config.t) :
  (forall st data, In data train_dataloader ->
     exists l inner, loss_fn (model st data) data = Ok (Scalar l, inner)) ->
  Config.accumulation_steps config <> 0%Z ->
  Config.log_interval config <> 0%Z ->
  Config.checkpoint_interval config <> 0%Z ->
  exists s,
    train model train_dataloader loss_fn config = Ok s
    /\ after_iterations config
         (Z.of_nat (List.length train_dataloader) * Config.num_epochs config)
         (Z.to_nat (Config.num_epochs config) * List.length train_dataloader)
         s.
Proof.
  intros Hloss Ha Hl Hc. unfold train.
  destruct (train_epochs_run loss_fn config
              (Z.of_nat (List.length train_dataloader)
               * Config.num_epochs config)%Z
              train_dataloader Hloss Ha Hl Hc
              (Z.to_nat (Config.num_epochs config)) initial 0%nat)
    as (s & Hrun & Hs).
  - unfold after_iterations. simpl.
    destruct (Config.gradient_clip config); repeat split; reflexivity.
  - exists s. split; [exact Hrun | exact Hs].
Qed.

(** X1: a run whose batches all have a loss takes
    [num_epochs * len(train_dataloader)] steps; both schedulers are stepped
    once per step, the gradients are clipped once per step when a threshold is
    configured and never otherwise, and every backward pass is either in one
    optimizer update or still accumulated at the end. *)
Theorem train_counters
  (train_dataloader : list Targets) (loss_fn : ComputeLoss) (config : Config.t) :
  (forall st data, In data train_dataloader ->
     exists l inner, loss_fn (model st data) data = Ok (Scalar l, inner)) ->
  Config.accumulation_steps config <> 0%Z ->
  Config.log_interval config <> 0%Z ->
  Config.checkpoint_interval config <> 0%Z ->
  let n := (Z.to_nat (Config.num_epochs config)
            * List.length train_dataloader)%nat in
  exists s,
    train model train_dataloader loss_fn config = Ok s
    /\ step s = Z.of_nat n
    /\ lr_scheduler_steps (state s) = n
    /\ teacher_force_steps (state s) = n
    /\ clip_calls (state s)
       = match Config.gradient_clip config with Some _ => n | None => 0%nat end
    /\ (list_sum (optimizer_steps (state s)) + accumulated (state s))%nat = n.
Proof.
  intros Hloss Ha Hl Hc n.
  destruct (train_run train_dataloader loss_fn config Hloss Ha Hl Hc)
    as (s & Hrun & Hstep & Hlr & Htf & Hclip & Hsum & _).
  exists s. fold n in Hstep, Hlr, Htf, Hclip, Hsum.
  repeat (split; [assumption |]). exact Hsum.
Qed.

Lemma div_succ (c k : nat) :
  (0 < c)%nat ->
  (S k / c = k / c + (if (S k mod c =? 0)%nat then 1 else 0))%nat.
Proof.
  intros Hc.
  pose proof (Nat.div_mod_eq k c) as Hk.
  pose proof (Nat.mod_upper_bound k c ltac:(lia)) as Hr.
  destruct (Nat.eq_dec (S (k mod c)) c) as [E | E].
  - assert (Hm : (S k mod c = 0)%nat).
    { apply eq_sym, Nat.mod_unique with (S (k / c))%nat; [lia |]. nia. }
    rewrite Hm. simpl Nat.eqb. cbv iota.
    apply eq_sym, Nat.div_unique with 0%nat; [lia |]. nia.
  - assert (Hm : (S k mod c = S (k mod c))%nat).
    { apply eq_sym, Nat.mod_unique with (k / c)%nat; [lia |]. nia. }
    rewrite Hm. simpl Nat.eqb. cbv iota.
    apply eq_sym, Nat.div_unique with (S (k mod c)); [lia |]. nia.
Qed.

(** Before the last step, the iterations that are due are the multiples of
    the interval. *)
Lemma due_count_before (interval : nat) (total_steps : Z) (k : nat) :
  (0 < interval)%nat ->
  (Z.of_nat k < total_steps)%Z ->
  due_count (Z.of_nat interval) total_steps k = (k / interval)%nat.
Proof.
  intros Hc. induction k as [| k IH]; intros Hk.
  - simpl. now rewrite Nat.Div0.div_0_l.
  - cbn [due_count]. rewrite IH by lia.
    rewrite (div_succ interval k Hc).
    rewrite <- Nat2Z.inj_mod.
    destruct (Z.eqb_spec (Z.of_nat (S k)) total_steps) as [E | _]; [lia |].
    rewrite orb_false_r.
    destruct (Nat.eqb_spec (S k mod interval) 0) as [E | E].
    + rewrite E. reflexivity.
    + destruct (Z.eqb_spec (Z.of_nat (S k mod interval)) 0); [lia |].
      reflexivity.
Qed.

(** X2: a run of [n > 0] steps evaluates [ceil (n / log_interval)] times and
    saves [ceil (n / checkpoint_interval)] checkpoints, numbered from zero:
    the last step is always evaluated and saved, also when it is not a
    multiple of the interval. *)
Theorem train_cadence
  (train_dataloader : list Targets) (loss_fn : ComputeLoss) (config : Config.t)
  (m : nat) :
  (forall st data, In data train_dataloader ->
     exists l inner, loss_fn (model st data) data = Ok (Scalar l, inner)) ->
  Config.accumulation_steps config <> 0%Z ->
  (0 < Config.log_interval config)%Z ->
  (0 < Config.checkpoint_interval config)%Z ->
  (Z.to_nat (Config.num_epochs config) * List.length train_dataloader)%nat
  = S m ->
  exists s,
    train model train_dataloader loss_fn config = Ok s
    /\ evaluations s = S (m / Z.to_nat (Config.log_interval config))
    /\ checkpoint_counter s
       = S (m / Z.to_nat (Config.checkpoint_interval config)).
Proof.
  intros Hloss Ha Hl Hc Hn.
  destruct (train_run train_dataloader loss_fn config Hloss Ha)
    as (s & Hrun & _ & _ & _ & _ & _ & Hev & Hck); try lia.
  exists s. split; [exact Hrun |].
  rewrite Hn in Hev, Hck.
  assert (Htotal : (Z.of_nat (List.length train_dataloader)
                    * Config.num_epochs config)%Z = Z.of_nat (S m)).
  { rewrite <- Hn. destruct (Z_lt_le_dec (Config.num_epochs config) 0).
    - exfalso.
      replace (Z.to_nat (Config.num_epochs config)) with 0%nat in Hn by lia.
      discriminate.
    - rewrite Nat2Z.inj_mul, Z2Nat.id by lia. lia. }
  rewrite Htotal in Hev, Hck. cbn [due_count] in Hev, Hck.
  rewrite Z.eqb_refl, orb_true_r in Hev, Hck.
  replace (Config.log_interval config)
    with (Z.of_nat (Z.to_nat (Config.log_interval config))) in Hev by lia.
  replace (Config.checkpoint_interval config)
    with (Z.of_nat (Z.to_nat (Config.checkpoint_interval config))) in Hck
    by lia.
  rewrite due_count_before in Hev, Hck by lia.
  split; lia.
Qed.



(** X4: an interval of zero is not rejected when the pipeline is built; the
    first step of the run raises [ZeroDivisionError]. *)
Theorem train_zero_interval
  (d : Targets) (rest : list Targets) (loss_fn : ComputeLoss)
  (config : Config.t) (l : ext) (inner : logs) :
  (0 < Config.num_epochs config)%Z ->
  loss_fn (model (state initial) d) d = Ok (Scalar l, inner) ->
  Config.accumulation_steps config = 0%Z
  \/ Config.log_interval config = 0%Z
  \/ Config.checkpoint_interval config = 0%Z ->
  train model (d :: rest) loss_fn config = Raise ZeroDivisionError.
Proof.
  intros Hepochs Hloss Hzero. unfold train.
  destruct (Z.to_nat (Config.num_epochs config)) as [| epochs] eqn:E; [lia |].
  cbn [train_epochs train_epoch].
  unfold train_iteration.
  destruct (Z.eq_dec (Config.accumulation_steps config) 0) as [Ha | Ha].
  - unfold train_batch, py_mod. simpl negb. cbv iota.
    rewrite Hloss, Ha. reflexivity.
  - rewrite (train_batch_effect d _ loss_fn config _ l inner Hloss Ha).
    cbn [bind]. unfold py_mod.
    destruct (Z.eqb_spec (Config.log_interval config) 0) as [Hl | Hl];
      [reflexivity |].
    cbn [bind].
    destruct (Z.eqb_spec (Config.checkpoint_interval config) 0) as [Hc | Hc];
      [reflexivity |].
    exfalso. destruct Hzero as [H | [H | H]]; contradiction.
Qed.

End Training.

End RunFacts.

(** ** What the pipeline builds *)

Module BuildFacts.

Import Losses LossObjects Pipeline.

Section WithKernels.

Context {K : Kernels}.


End WithKernels.

Section WithScheduler.

Context {LrScheduler : Type}.
Variable get_scheduler : string -> Z -> Z -> result LrScheduler.
Variable DummyLRScheduler : LrScheduler.

(** X6: for a warm-up fraction between zero and one the number of warm-up
    steps handed to the scheduler factory lies between zero and the number of
    training steps; without a scheduler name the dummy scheduler is built. *)
Theorem make_scheduler_warmup (steps_per_epoch : Z) (config : Config.t) (q : Q) :
  Config.warmup_fraction config = Fin q ->
  0 <= q -> q <= 1 ->
  (0 <= steps_per_epoch)%Z -> (0 <= Config.num_epochs config)%Z ->
  let total_steps := (steps_per_epoch * Config.num_epochs config)%Z in
  exists warmup_steps,
    (0 <= warmup_steps <= total_steps)%Z
    /\ make_scheduler get_scheduler DummyLRScheduler steps_per_epoch config
       = if String.eqb (Config.scheduler config) "none" then Ok DummyLRScheduler
         else get_scheduler (Config.scheduler config) warmup_steps total_steps.
Proof.
  intros Hfrac Hq0 Hq1 Hs He total_steps.
  assert (Ht : (0 <= total_steps)%Z) by (unfold total_steps; nia).
  unfold make_scheduler. fold total_steps. rewrite Hfrac.
  cbn [emul of_Z py_int bind].
  set (x := q * inject_Z total_steps).
  assert (Hx0 : 0 <= x).
  { unfold x. apply Qmult_le_0_compat; [exact Hq0 |].
    replace 0 with (inject_Z 0) by reflexivity. now rewrite <- Zle_Qle. }
  assert (Hx1 : x <= inject_Z total_steps).
  { unfold x. rewrite <- (Qmult_1_l (inject_Z total_steps)) at 2.
    apply Qmult_le_compat_r; [exact Hq1 |].
    replace 0 with (inject_Z 0) by reflexivity. now rewrite <- Zle_Qle. }
  clearbody x.
  assert (Hnum : (0 <= Qnum x)%Z).
  { unfold Qle in Hx0. simpl in Hx0. lia. }
  assert (Hfloor : (Qnum x ÷ Z.pos (Qden x))%Z = Qfloor x).
  { unfold Qfloor. destruct x as [a b]. simpl in *.
    apply Z.quot_div_nonneg; lia. }
  exists (Qnum x ÷ Z.pos (Qden x))%Z. split.
  - rewrite Hfloor. split.
    + replace 0%Z with (Qfloor 0) by reflexivity. now apply Qfloor_resp_le.
    + rewrite <- (Qfloor_Z total_steps). now apply Qfloor_resp_le.
  - now destruct (String.eqb (Config.scheduler config) "none").
Qed.

End WithScheduler.

End BuildFacts.

(** ** Edge cases and invariances of the losses *)

Module LossEdgeFacts.

Import NumFacts TorchFacts Losses LossFacts LossNotions.

(** X7: every reduction mode that is supported returns, and returns finite
    values on a finite tensor; the empty tensor has mean and sum zero, not
    [NaN]. *)
Theorem apply_reduction_total (input : vec) (reduction : string) :
  reduction = "none"%string \/ reduction = "mean"%string
  \/ reduction = "sum"%string ->
  Forall finite input ->
  (exists t, apply_reduction input reduction = Ok t /\ tensor_finite t)
  /\ apply_reduction [] "mean" = Ok (Scalar (Fin 0))
  /\ apply_reduction [] "sum" = Ok (Scalar (Fin 0))
  /\ apply_reduction [] "none" = Ok (Tensor []).
Proof.
  intros Hred Hfin. split; [| repeat split; reflexivity].
  destruct (apply_reduction_valid input reduction Hred) as [t Ht].
  pose proof (apply_reduction_finite input reduction Hfin) as H.
  rewrite Ht in H. now exists t.
Qed.

Lemma select_all {A : Type} (mask : list bool) (l : list A) :
  Forall (fun b => b = true) mask ->
  List.length mask = List.length l ->
  select mask l = l.
Proof.
  intros H. revert l. induction H as [| b mask -> _ IH]; intros [| a l];
    simpl; try discriminate; auto.
  intros Hlen. f_equal. apply IH. lia.
Qed.

Section WithKernels.

Context {K : Kernels}.

(** X8: when the rationale of every example is longer than the threshold,
    nothing is left to reduce: the loss is exactly zero under ["mean"] and
    ["sum"], and the empty tensor under ["none"]. *)
Theorem rationale_loss_all_excluded
  logits labels passage_mask max_rationale_length mask :
  rationale_shapes logits labels passage_mask mask = true ->
  Forall2 (fun l p => valid_rationale max_rationale_length (map2 emul l p)
                      = false) labels passage_mask ->
  rationale_loss logits labels passage_mask max_rationale_length "mean" mask
  = Ok (Scalar (Fin 0))
  /\ rationale_loss logits labels passage_mask max_rationale_length "sum" mask
     = Ok (Scalar (Fin 0))
  /\ rationale_loss logits labels passage_mask max_rationale_length "none" mask
     = Ok (Tensor []).
Proof.
  intros Hshape Hex.
  assert (Hvalid : Forall (fun b => b = false)
            (map2 (fun l p => valid_rationale max_rationale_length
                                (map2 emul l p)) labels passage_mask)).
  { clear Hshape.
    induction Hex as [| l p labels' pm Hlp _ IH]; simpl; constructor; auto. }
  assert (Hnone : Forall (fun b => b = false)
            (surviving labels passage_mask max_rationale_length mask)).
  { unfold surviving. destruct mask as [mask |]; [| exact Hvalid].
    clear - Hvalid. revert mask.
    induction Hvalid as [| b valid -> _ IH]; intros [| m mask]; simpl;
      constructor; auto. }
  rewrite !rationale_loss_survivors by exact Hshape.
  rewrite !(select_none _ _ Hnone).
  repeat split; reflexivity.
Qed.

(** X9: a mask that selects every example changes nothing, in the rationale
    loss and in the generative loss. *)
Theorem mask_of_all_examples
  logits labels passage_mask max_rationale_length
  gen_logits (gen_labels : list (list Z)) reduction mask :
  Forall (fun b => b = true) mask ->
  rationale_shapes logits labels passage_mask (Some mask) = true ->
  same_size mask gen_logits = true ->
  same_size mask gen_labels = true ->
  rationale_loss logits labels passage_mask max_rationale_length reduction
    (Some mask)
  = rationale_loss logits labels passage_mask max_rationale_length reduction
      None
  /\ generative_loss gen_logits gen_labels reduction (Some mask)
     = generative_loss gen_logits gen_labels reduction None.
Proof.
  intros Hall Hshape Hgl Hgb. split.
  - destruct (rationale_loss_masked _ _ _ max_rationale_length reduction _
                Hshape) as [_ ->].
    unfold rationale_shapes, rationale_shapes_mask in Hshape.
    apply andb_true_iff in Hshape. destruct Hshape as [Hshape Hm].
    apply andb_true_iff in Hshape. destruct Hshape as [Hlp Hgl'].
    apply same_size_iff in Hm.
    pose proof (aligned_length _ _ Hlp) as E1.
    pose proof (aligned_length _ _ Hgl') as E2.
    rewrite !select_all; auto; congruence.
  - rewrite generative_loss_masked, Hgl, Hgb.
    apply same_size_iff in Hgl, Hgb.
    now rewrite !select_all.
Qed.

End WithKernels.

(** *** The weights of the rationale loss are a distribution over the
    passage *)

(** The weights before the masking and the normalisation, with the infinite
    ones rewritten: zero for a class that the example does not have. *)
Lemma rewritten_weights (t' t k : Q) (labels : vec) :
  0 < t' ->
  map (fun w => if eneqb w PInf then w else Fin 0)
    (map (fun l => if eeqb l (Fin 1)
                   then ediv (Fin t') (Fin k)
                   else ediv (Fin t') (esub (Fin t) (Fin k))) labels)
  = map (fun y => if eeqb y (Fin 1)
                  then Fin (if Qeq_bool k 0 then 0 else t' / k)
                  else Fin (if Qeq_bool (t + - k) 0 then 0 else t' / (t + - k)))
      labels.
Proof.
  intros Ht. rewrite map_map. apply map_ext. intros y.
  simpl esub. rewrite !ediv_pos by exact Ht.
  destruct (eeqb y (Fin 1)).
  - now destruct (Qeq_bool k 0).
  - now destruct (Qeq_bool (t + - k) 0).
Qed.




(** *** Positions outside the passage *)

Lemma outside_weights_zero (c : Q) (weights passage_mask : vec) :
  ~ c == 0 ->
  Forall finite weights -> Forall finite passage_mask ->
  List.length weights = List.length passage_mask ->
  Forall2 (fun p w => eqv p (Fin 0) -> eqv w (Fin 0)) passage_mask
    (map (fun w => ediv w (Fin c)) (map2 emul weights passage_mask)).
Proof.
  intros Hc Hw. revert passage_mask.
  induction Hw as [| w weights Hfw _ IH]; intros [| p pm] Hp Hlen;
    simpl in *; try discriminate; auto.
  inversion Hp as [| ? ? Hfp Hp']; subst.
  constructor; [| apply IH; auto].
  destruct (finite_is_Fin _ Hfw) as [qw ->].
  destruct (finite_is_Fin _ Hfp) as [qp ->].
  intros Hzero. simpl in Hzero. simpl emul.
  rewrite ediv_Fin by exact Hc. simpl. rewrite Hzero. field. exact Hc.
Qed.

(** The weight of a position outside the passage is zero. *)
Lemma rationale_weights_outside (labels passage_mask : vec) :
  Forall finite labels -> Forall finite passage_mask ->
  List.length labels = List.length passage_mask ->
  Forall2 (fun p w => eqv p (Fin 0) -> eqv w (Fin 0)) passage_mask
    (rationale_weights labels passage_mask).
Proof.
  intros Hl Hp Hlen. unfold rationale_weights.
  destruct (finite_is_Fin _ (vsum_finite _ Hp)) as [t Ht].
  destruct (finite_is_Fin _ (vsum_finite _ Hl)) as [k Hk].
  rewrite Ht, Hk.
  destruct (clamp_epsilon t) as (t' & -> & Ht' & _).
  pose proof epsilon_pos as Heps.
  rewrite rewritten_weights by lra.
  match goal with
  | |- context [map2 emul ?g passage_mask] =>
      assert (Hg : Forall finite g)
        by (apply Forall_map, Forall_forall; intros y _;
            now destruct (eeqb y (Fin 1)));
      assert (H3 : Forall finite (map2 emul g passage_mask))
        by (apply Forall_map2 with (P := finite) (Q := finite);
            auto using finite_emul)
  end.
  destruct (finite_is_Fin _ (vsum_finite _ H3)) as [s Hs]. rewrite Hs.
  destruct (clamp_epsilon s) as (c & -> & Hc & _).
  apply outside_weights_zero; auto; [lra |].
  now rewrite length_map.
Qed.

Lemma vsum_of_zeros (v : vec) :
  Forall (fun x => eqv x (Fin 0)) v -> eqv (vsum v) (Fin 0).
Proof.
  induction 1 as [| x v Hx _ IH]; [reflexivity |].
  rewrite vsum_cons.
  apply eqv_trans with (eadd (Fin 0) (Fin 0)).
  - now apply eadd_eqv.
  - simpl. ring.
Qed.

Section WithKernels.

Context {K : Kernels}.

Hypothesis bce_finite :
  forall x y, finite x -> finite y -> finite (bce_with_logits_token x y).

(** The token losses of two tensors of logits that agree on the passage. *)
Lemma token_losses_agree (logits logits' passage_mask : vec) :
  agree_on_passage logits logits' passage_mask ->
  forall labels weights : vec,
    Forall finite labels -> Forall finite weights ->
    Forall2 (fun p w => eqv p (Fin 0) -> eqv w (Fin 0)) passage_mask weights ->
    Forall2 eqv
      (map3 (fun x y w => emul (bce_with_logits_token x y) w)
         logits labels weights)
      (map3 (fun x y w => emul (bce_with_logits_token x y) w)
         logits' labels weights).
Proof.
  induction 1 as [| x x' p logits logits' pm Hx Hx' Hp Hagree _ IH];
    intros labels weights Hl Hw Hout.
  - constructor.
  - destruct Hl as [| y labels Hy Hl]; [constructor |].
    inversion Hout as [| ? w ? weights' Hpw Hout']; subst.
    inversion Hw as [| ? ? Hfw Hw']; subst.
    cbn [map3]. constructor; [| now apply IH].
    destruct (finite_is_Fin _ Hp) as [qp ->].
    destruct (Qeq_dec qp 0) as [E | E].
    + specialize (Hpw E).
      destruct (finite_is_Fin _ Hfw) as [qw ->]. simpl in Hpw.
      destruct (finite_is_Fin _ (bce_finite x y Hx Hy)) as [b ->].
      destruct (finite_is_Fin _ (bce_finite x' y Hx' Hy)) as [b' ->].
      simpl. rewrite Hpw. ring.
    + rewrite (Hagree E). apply eqv_refl.
Qed.

(** X11: the positions outside the passage have weight zero, whatever their
    labels, and the loss of an example does not depend on the logits at these
    positions. *)
Theorem rationale_loss_ignores_outside (logits logits' labels passage_mask : vec) :
  Forall finite labels ->
  List.length labels = List.length passage_mask ->
  agree_on_passage logits logits' passage_mask ->
  Forall2 (fun p w => eqv p (Fin 0) -> eqv w (Fin 0)) passage_mask
    (rationale_weights (map2 emul labels passage_mask) passage_mask)
  /\ eqv (rationale_sample logits labels passage_mask)
         (rationale_sample logits' labels passage_mask).
Proof.
  intros Hl Hlen Hagree.
  assert (Hp : Forall finite passage_mask).
  { clear - Hagree. induction Hagree; constructor; auto. }
  assert (Hl' : Forall finite (map2 emul labels passage_mask)).
  { apply Forall_map2 with (P := finite) (Q := finite); auto using finite_emul. }
  assert (Hout : Forall2 (fun p w => eqv p (Fin 0) -> eqv w (Fin 0))
                   passage_mask
                   (rationale_weights (map2 emul labels passage_mask)
                      passage_mask)).
  { apply rationale_weights_outside; auto. now rewrite map2_length. }
  split; [exact Hout |].
  unfold rationale_sample. apply vsum_eqv.
  apply (token_losses_agree logits logits' passage_mask Hagree); auto.
  now apply rationale_weights_finite.
Qed.

(** X12: an example without a passage token is not dropped, for a threshold
    that is not negative: it stays in the batch, and so in the denominator of
    the mean, with all its weights zero and a loss of zero. *)
Theorem rationale_loss_empty_passage
  (logits labels passage_mask : vec) (max_rationale_length : Z) :
  Forall finite logits -> Forall finite labels ->
  Forall (fun p => eqv p (Fin 0)) passage_mask ->
  List.length labels = List.length passage_mask ->
  (0 <= max_rationale_length)%Z ->
  valid_rationale max_rationale_length (map2 emul labels passage_mask) = true
  /\ Forall (fun w => eqv w (Fin 0))
       (rationale_weights (map2 emul labels passage_mask) passage_mask)
  /\ eqv (rationale_sample logits labels passage_mask) (Fin 0).
Proof.
  intros Hg Hl Hzero Hlen Hmax.
  assert (Hp : Forall finite passage_mask).
  { revert Hzero. apply Forall_impl. intros p Hp.
    apply (finite_eqv (Fin 0)); [now apply eqv_sym | exact I]. }
  assert (Hl' : Forall finite (map2 emul labels passage_mask)).
  { apply Forall_map2 with (P := finite) (Q := finite); auto using finite_emul. }
  assert (Hl0 : Forall (fun y => eqv y (Fin 0)) (map2 emul labels passage_mask)).
  { clear - Hl Hzero. revert labels Hl.
    induction Hzero as [| p pm Hp0 _ IH]; intros labels Hl;
      destruct Hl as [| y labels Hy Hl]; simpl; constructor; auto.
    destruct (finite_is_Fin _ Hy) as [qy ->].
    destruct p; simpl in Hp0; try contradiction.
    simpl. rewrite Hp0. ring. }
  assert (Hw : Forall (fun w => eqv w (Fin 0))
                 (rationale_weights (map2 emul labels passage_mask)
                    passage_mask)).
  { pose proof (rationale_weights_outside (map2 emul labels passage_mask)
                  passage_mask Hl' Hp) as Hout.
    rewrite map2_length in Hout by exact Hlen.
    specialize (Hout Hlen).
    clear - Hout Hzero. induction Hout as [| p w pm ws Hpw _ IH];
      [constructor |].
    inversion Hzero; subst. constructor; auto. }
  split; [| split; [exact Hw |]].
  - unfold valid_rationale.
    pose proof (vsum_of_zeros _ Hl0) as Hs.
    destruct (vsum (map2 emul labels passage_mask)); simpl in Hs;
      try contradiction.
    unfold of_Z. simpl. apply Qle_bool_true. rewrite Hs.
    replace 0 with (inject_Z 0) by reflexivity. now rewrite <- Zle_Qle.
  - unfold rationale_sample. apply vsum_of_zeros.
    pose proof (rationale_weights_finite _ _ Hl' Hp) as Hwf.
    revert Hw Hwf.
    generalize (rationale_weights (map2 emul labels passage_mask) passage_mask).
    generalize (map2 emul labels passage_mask) Hl'.
    clear - Hg bce_finite.
    induction Hg as [| x logits Hx _ IH]; intros ys Hys ws Hw Hwf;
      [constructor |].
    destruct Hys as [| y ys Hy Hys]; [constructor |].
    destruct Hw as [| w ws Hw0 Hw]; [constructor |].
    inversion Hwf; subst. cbn [map3]. constructor; [| now apply IH].
    destruct (finite_is_Fin _ (bce_finite x y Hx Hy)) as [b ->].
    destruct w; simpl in Hw0; try contradiction.
    simpl. rewrite Hw0. ring.
Qed.

End WithKernels.

(** *** The generative loss: the floor and the order of the batch *)





Section WithKernels.

Context {K : Kernels}.

(** X13: the floor of the denominator is reached only by an example without
    a scored token: with a scored token, the loss of an example is the sum of
    its token losses over the number of its scored tokens. *)
Theorem generative_sample_average (logits : list vec) (labels : list Z) :
  has_scored_token labels ->
  exists n : nat,
    (0 < n)%nat
    /\ n = List.length (filter (fun t => negb (t =? IGNORE_INDEX)%Z) labels)
    /\ clamp_min _EPSILON (n_tokens labels) = of_nat n
    /\ generative_sample logits labels
       = ediv (vsum (map2 cross_entropy_at logits labels)) (of_nat n).
Proof.
  intros Hscored.
  exists (List.length (filter (fun t => negb (t =? IGNORE_INDEX)%Z) labels)).
  assert (Hpos : (0 < List.length
                        (filter (fun t => negb (t =? IGNORE_INDEX)%Z) labels))%nat).
  { apply Exists_exists in Hscored. destruct Hscored as (t & Hin & Ht).
    assert (Hf : In t (filter (fun t => negb (t =? IGNORE_INDEX)%Z) labels)).
    { apply filter_In. split; [exact Hin |].
      now destruct (Z.eqb_spec t IGNORE_INDEX). }
    destruct (filter (fun t => negb (t =? IGNORE_INDEX)%Z) labels);
      [contradiction | simpl; lia]. }
  assert (Hclamp : clamp_min _EPSILON (n_tokens labels) = n_tokens labels).
  { unfold n_tokens, of_nat, of_Z.
    destruct (clamp_epsilon
                (inject_Z (Z.of_nat
                   (List.length
                      (filter (fun t => negb (t =? IGNORE_INDEX)%Z) labels)))))
      as (c & -> & _ & Hc).
    rewrite Hc; [reflexivity |].
    apply Qle_trans with 1; [discriminate |]. now apply Qnat_pos. }
  split; [exact Hpos |]. split; [reflexivity |]. split; [exact Hclamp |].
  unfold generative_sample. now rewrite Hclamp.
Qed.


End WithKernels.

End LossEdgeFacts.

(** ** The annotation of answer types *)

Module AnnotationFacts.

Import Annotation.

Section Find.

Context {A : Type}.
Variable eqb : A -> A -> bool.
Hypothesis eqb_eq : forall a b, eqb a b = true <-> a = b.

Lemma startswith_slice (s sub : list A) :
  startswith eqb s sub = true <-> firstn (List.length sub) s = sub.
Proof.
  revert s. induction sub as [| a sub IH]; intros [| b s]; simpl.
  - tauto.
  - tauto.
  - split; discriminate.
  - rewrite andb_true_iff, eqb_eq, IH. split.
    + intros [-> ->]. reflexivity.
    + intros H. injection H as -> H. auto.
Qed.

(** [find_from] returns the first position at which [sub] starts, shifted by
    [i], and [-1] when there is none. *)
Lemma find_from_first (s sub : list A) (i : Z) :
  (0 <= i)%Z ->
  (find_from eqb s sub i = (-1)%Z
   /\ forall k, firstn (List.length sub) (skipn k s) <> sub)
  \/ exists n,
       find_from eqb s sub i = (i + Z.of_nat n)%Z
       /\ firstn (List.length sub) (skipn n s) = sub
       /\ forall k, (k < n)%nat -> firstn (List.length sub) (skipn k s) <> sub.
Proof.
  revert i. induction s as [| b s IH]; intros i Hi; cbn [find_from].
  - destruct (startswith eqb [] sub) eqn:E.
    + right. exists 0%nat. rewrite Z.add_0_r. split; [reflexivity |].
      split; [now apply startswith_slice | intros k Hk; lia].
    + left. split; [reflexivity |]. intros k H.
      rewrite skipn_nil in H. apply startswith_slice in H. congruence.
  - destruct (startswith eqb (b :: s) sub) eqn:E.
    + right. exists 0%nat. rewrite Z.add_0_r. split; [reflexivity |].
      split; [now apply startswith_slice | intros k Hk; lia].
    + assert (H0 : firstn (List.length sub) (b :: s) <> sub).
      { intros H. apply startswith_slice in H. congruence. }
      destruct (IH (i + 1)%Z ltac:(lia)) as [[Hr Hno] | (n & Hr & Hat & Hno)].
      * left. split; [exact Hr |]. intros [| k]; [exact H0 | apply Hno].
      * right. exists (S n). split; [rewrite Hr; lia |].
        split; [exact Hat |].
        intros [| k] Hk; [exact H0 | apply Hno; lia].
Qed.

(** X15: a span that [find_answer_span] returns is the first place of the
    passage where the answer stands, read back by slicing the passage from
    its start to its end; there is no span exactly when the answer stands
    nowhere in the passage. *)
Theorem find_answer_span_first (passage answer : list A) :
  match find_answer_span eqb passage answer with
  | Some (start_idx, end_idx) =>
      exists n,
        start_idx = Z.of_nat n
        /\ end_idx = Z.of_nat (n + List.length answer)
        /\ firstn (List.length answer) (skipn n passage) = answer
        /\ forall k, (k < n)%nat ->
             firstn (List.length answer) (skipn k passage) <> answer
  | None => forall k, firstn (List.length answer) (skipn k passage) <> answer
  end.
Proof.
  unfold find_answer_span, find.
  destruct (find_from_first passage answer 0 ltac:(lia))
    as [[Hr Hno] | (n & Hr & Hat & Hno)]; rewrite Hr.
  - simpl. exact Hno.
  - destruct (Z.eqb_spec (0 + Z.of_nat n) (-1)) as [E | _]; [lia |].
    exists n. repeat split; auto; lia.
Qed.

End Find.

Lemma ascii_eqb_eq (a b : ascii) : Ascii.eqb a b = true <-> a = b.
Proof. apply Ascii.eqb_eq. Qed.

Lemma text_eqb_eq (a b : text) : text_eqb a b = true <-> a = b.
Proof.
  unfold text_eqb. destruct (list_eq_dec ascii_dec a b); split; auto.
  discriminate.
Qed.

(** The empty text is found at the start of every text. *)
Lemma find_empty (s : text) : find Ascii.eqb s [] = 0%Z.
Proof. unfold find. now destruct s. Qed.

(** *** [normalize_text] *)

Lemma split_word (w : text) : spaceless w -> split w = [w].
Proof.
  intros [Hne Hw]. induction Hw as [| c w Hc Hw IH]; [contradiction |].
  cbn [split]. rewrite Hc.
  destruct Hw as [| d w Hd Hw]; [reflexivity |].
  rewrite Hd, IH by discriminate. reflexivity.
Qed.

Lemma split_word_space (w rest : text) (sp : ascii) :
  spaceless w -> is_space sp = true ->
  split (w ++ sp :: rest) = w :: split rest.
Proof.
  intros [Hne Hw] Hsp. induction Hw as [| c w Hc Hw IH]; [contradiction |].
  cbn [app split]. rewrite Hc.
  destruct Hw as [| d w Hd Hw].
  - cbn [app]. rewrite Hsp. cbn [split]. now rewrite Hsp.
  - cbn [app] in *. rewrite Hd, IH by discriminate. reflexivity.
Qed.

Lemma split_spaceless (t : text) : Forall spaceless (split t).
Proof.
  induction t as [| c t IH]; cbn [split]; [constructor |].
  destruct (is_space c) eqn:Hc; [exact IH |].
  destruct t as [| d t]; [repeat constructor; [discriminate | exact Hc] |].
  destruct (is_space d) eqn:Hd.
  - constructor; [| exact IH]. repeat constructor; [discriminate | exact Hc].
  - destruct (split (d :: t)) as [| w ws].
    + repeat constructor; [discriminate | exact Hc].
    + inversion IH as [| ? ? [Hne Hw] Hws]; subst.
      constructor; [| exact Hws]. split; [discriminate | now constructor].
Qed.

Lemma split_join (ws : list text) :
  Forall spaceless ws -> split (join (str " ") ws) = ws.
Proof.
  induction 1 as [| w ws Hw Hws IH]; [reflexivity |].
  destruct ws as [| w' ws].
  - simpl. now apply split_word.
  - change (join (str " ") (w :: w' :: ws))
      with (w ++ " "%char :: join (str " ") (w' :: ws)).
    rewrite split_word_space by (auto; reflexivity). now rewrite IH.
Qed.

(** The characters of a split text are characters of the text. *)
Lemma split_chars (P : ascii -> Prop) (t : text) :
  Forall P t -> Forall (Forall P) (split t).
Proof.
  induction 1 as [| c t Hc Ht IH]; cbn [split]; [constructor |].
  destruct (is_space c); [exact IH |].
  destruct t as [| d t]; [repeat constructor; exact Hc |].
  destruct (is_space d).
  - constructor; [repeat constructor; exact Hc | exact IH].
  - destruct (split (d :: t)) as [| w ws].
    + repeat constructor; exact Hc.
    + inversion IH; subst. constructor; [now constructor | assumption].
Qed.

Lemma join_chars (P : ascii -> Prop) (ws : list text) :
  P " "%char -> Forall (Forall P) ws -> Forall P (join (str " ") ws).
Proof.
  intros Hsp. induction 1 as [| w ws Hw Hws IH]; [constructor |].
  destruct ws as [| w' ws]; [exact Hw |].
  change (join (str " ") (w :: w' :: ws))
    with (w ++ " "%char :: join (str " ") (w' :: ws)).
  apply Forall_app. split; [exact Hw | now constructor].
Qed.

Lemma lower_fixed (t : text) :
  Forall (fun c => lower_char c = c) t -> lower t = t.
Proof.
  induction 1 as [| c t Hc _ IH]; [reflexivity |].
  unfold lower in *. simpl. now rewrite Hc, IH.
Qed.

Lemma remove_punc_fixed (t : text) :
  Forall (fun c => is_punctuation c = false) t -> remove_punc t = t.
Proof.
  induction 1 as [| c t Hc _ IH]; [reflexivity |].
  unfold remove_punc in *. simpl. now rewrite Hc, IH.
Qed.

(** Lower-casing an ASCII character gives a character that lower-casing
    leaves as it is, and keeps the punctuation and the white space. *)
Lemma lower_char_facts (c : ascii) :
  lower_char (lower_char c) = lower_char c
  /\ is_punctuation (lower_char c) = is_punctuation c
  /\ is_space (lower_char c) = is_space c.
Proof.
  destruct c as [[] [] [] [] [] [] [] []]; repeat split; reflexivity.
Qed.

Lemma normalised_chars (t : text) :
  Forall normal_char (remove_punc (lower t)).
Proof.
  unfold remove_punc, lower. induction t as [| c t IH]; simpl; [constructor |].
  destruct (is_punctuation (lower_char c)) eqn:E; simpl; [exact IH |].
  constructor; [| exact IH]. split; [apply lower_char_facts | exact E].
Qed.

(** X16: [normalize_text] is idempotent, and its result is a sequence of
    words joined by single spaces, without punctuation, upper-case letters
    or other white space. *)
Theorem normalize_text_normal_form (t : text) :
  ascii_text t ->
  normalize_text (normalize_text t) = normalize_text t
  /\ exists words,
       normalize_text t = join (str " ") words
       /\ Forall (fun w => w <> []
                           /\ Forall (fun c => is_space c = false
                                               /\ is_punctuation c = false
                                               /\ lower_char c = c) w) words.
Proof.
  intros _.
  set (u := remove_punc (lower t)).
  pose proof (normalised_chars t) as Hu. fold u in Hu.
  pose proof (split_spaceless u) as Hsp.
  pose proof (split_chars normal_char u Hu) as Hch.
  assert (Hn : Forall normal_char (normalize_text t)).
  { unfold normalize_text, white_space_fix. fold u.
    apply join_chars; [split; reflexivity | exact Hch]. }
  split.
  - unfold normalize_text at 1. unfold white_space_fix.
    rewrite lower_fixed, remove_punc_fixed.
    + unfold normalize_text, white_space_fix. fold u. now rewrite split_join.
    + revert Hn. apply Forall_impl. now intros c [_ H].
    + revert Hn. apply Forall_impl. now intros c [H _].
  - exists (split u). split; [reflexivity |].
    clear - Hsp Hch. induction Hsp as [| w ws [Hne Hw] _ IH];
      [constructor |].
    inversion Hch as [| ? ? Hcw Hch']; subst.
    constructor; [| now apply IH]. split; [exact Hne |].
    clear - Hw Hcw. induction Hw as [| c w Hc _ IH]; [constructor |].
    inversion Hcw as [| ? ? [Hlow Hpun] Hcw']; subst.
    constructor; auto.
Qed.

(** *** [get_answer_type] *)

Lemma split_spaces (t : text) :
  Forall (fun c => is_space c = true) t -> split t = [].
Proof.
  induction 1 as [| c t Hc _ IH]; [reflexivity |].
  cbn [split]. now rewrite Hc.
Qed.

Lemma normalize_punctuation (t : text) :
  Forall (fun c => is_punctuation c || is_space c = true) t ->
  normalize_text t = [].
Proof.
  intros H. unfold normalize_text, white_space_fix.
  rewrite split_spaces; [reflexivity |].
  unfold remove_punc, lower.
  induction H as [| c t Hc _ IH]; simpl; [constructor |].
  destruct (lower_char_facts c) as (_ & Hp & Hs).
  rewrite Hp. destruct (is_punctuation c) eqn:E; simpl; [exact IH |].
  constructor; [| exact IH]. now rewrite Hs.
Qed.

Section WithUtils.

Variable is_number : text -> bool.

(** X17: an answer made of punctuation and white space only has the empty
    text as its normal form, which is found at the start of every passage:
    unless its span is [(-1, -1)], its type is [SPAN], whatever the passage
    and the question are. *)
Theorem punctuation_answer_is_span
  (norm_passage norm_question answer : text) (span_start span_end : Z) :
  Forall (fun c => is_punctuation c || is_space c = true) answer ->
  ~ (span_start = (-1)%Z /\ span_end = (-1)%Z) ->
  normalize_text answer = []
  /\ get_answer_type is_number norm_passage norm_question answer
       span_start span_end = SPAN.
Proof.
  intros Hanswer Hspan.
  pose proof (normalize_punctuation answer Hanswer) as Hn.
  split; [exact Hn |].
  unfold get_answer_type. rewrite Hn.
  destruct (Z.eqb_spec span_start (-1)) as [E1 | E1],
           (Z.eqb_spec span_end (-1)) as [E2 | E2]; simpl andb; cbv iota;
    try (exfalso; apply Hspan; now split);
    unfold find_answer_span; rewrite find_empty; reflexivity.
Qed.

(** X18: the order of the tests of [get_answer_type]: the type is [UNKNOWN]
    exactly for the span [(-1, -1)]; otherwise it is [YES_NO] exactly when
    the normal form of the answer is ["yes"] or ["no"], also when that word
    stands in the passage; otherwise it is [SPAN] exactly when the normal
    form of the answer stands in the passage. *)
Theorem get_answer_type_order
  (norm_passage norm_question answer : text) (span_start span_end : Z) :
  ascii_text answer ->
  let normal := normalize_text answer in
  let answer_type :=
    get_answer_type is_number norm_passage norm_question answer
      span_start span_end in
  let unknown := span_start = (-1)%Z /\ span_end = (-1)%Z in
  let yes_no := normal = str "yes" \/ normal = str "no" in
  let in_passage :=
    exists k, firstn (List.length normal) (skipn k norm_passage) = normal in
  (answer_type = UNKNOWN <-> unknown)
  /\ (answer_type = YES_NO <-> ~ unknown /\ yes_no)
  /\ (answer_type = SPAN <-> ~ unknown /\ ~ yes_no /\ in_passage).
Proof.
  intros _ normal answer_type unknown yes_no in_passage.
  assert (Hu : {unknown} + {~ unknown}).
  { unfold unknown.
    destruct (Z.eq_dec span_start (-1)), (Z.eq_dec span_end (-1)); tauto. }
  assert (Hy : {yes_no} + {~ yes_no}).
  { unfold yes_no.
    destruct (list_eq_dec ascii_dec normal (str "yes")),
             (list_eq_dec ascii_dec normal (str "no")); tauto. }
  assert (Hfind :
    (find_answer_span Ascii.eqb norm_passage normal = None /\ ~ in_passage)
    \/ ((exists sp, find_answer_span Ascii.eqb norm_passage normal = Some sp)
        /\ in_passage)).
  { unfold find_answer_span, find, in_passage.
    destruct (find_from_first Ascii.eqb ascii_eqb_eq norm_passage normal 0
                ltac:(lia)) as [[Hr Hno] | (n & Hr & Hat & Hno)]; rewrite Hr.
    - left. split; [reflexivity |]. intros [k Hk]. now apply (Hno k).
    - right. destruct (Z.eqb_spec (0 + Z.of_nat n) (-1)); [lia |].
      split; eauto. }
  unfold answer_type, get_answer_type. fold normal.
  destruct Hu as [Hu | Hu].
  - destruct Hu as [E1 E2]. rewrite E1, E2. simpl.
    unfold unknown. rewrite E1, E2.
    repeat split; try tauto; try discriminate.
  - assert (E : ((span_start =? -1) && (span_end =? -1))%Z = false).
    { unfold unknown in Hu.
      destruct (Z.eqb_spec span_start (-1)), (Z.eqb_spec span_end (-1));
        simpl; tauto. }
    rewrite E.
    destruct Hy as [Hy | Hy].
    + assert (E' : text_eqb normal (str "yes") || text_eqb normal (str "no")
                   = true).
      { apply orb_true_iff. unfold yes_no in Hy.
        destruct Hy as [Hy | Hy]; [left | right]; now apply text_eqb_eq. }
      rewrite E'. repeat split; try tauto; discriminate.
    + assert (E' : text_eqb normal (str "yes") || text_eqb normal (str "no")
                   = false).
      { apply orb_false_iff. unfold yes_no in Hy.
        split; apply not_true_is_false; intros H; apply text_eqb_eq in H;
          tauto. }
      rewrite E'.
      destruct Hfind as [[Hnone Hno] | [[sp Hsome] Hin]].
      * rewrite Hnone.
        destruct (contains Ascii.eqb norm_question (str "or")
                  && contains Ascii.eqb norm_question normal),
                 (is_number normal);
          repeat split; try tauto; discriminate.
      * rewrite Hsome. repeat split; try tauto; discriminate.
Qed.

End WithUtils.

(** *** The vote of the answers of a question *)

Lemma AnswerType_eqb_eq (a b : AnswerType) :
  AnswerType_eqb a b = true <-> a = b.
Proof. destruct a, b; simpl; split; congruence. Qed.

Lemma AnswerType_eqb_refl (a : AnswerType) : AnswerType_eqb a a = true.
Proof. now destruct a. Qed.

Lemma AnswerType_eqb_neq (a b : AnswerType) :
  a <> b -> AnswerType_eqb a b = false.
Proof.
  intros H. destruct (AnswerType_eqb a b) eqn:E; [| reflexivity].
  apply AnswerType_eqb_eq in E. contradiction.
Qed.

Lemma count_of_add (t u : AnswerType) (c : list (AnswerType * nat)) :
  count_of (counter_add t c) u
  = if AnswerType_eqb u t then S (count_of c u) else count_of c u.
Proof.
  induction c as [| [v n] c IH]; simpl.
  - now destruct (AnswerType_eqb u t).
  - destruct (AnswerType_eqb t v) eqn:Etv; simpl.
    + apply AnswerType_eqb_eq in Etv. subst v.
      now destruct (AnswerType_eqb u t).
    + destruct (AnswerType_eqb u v) eqn:Euv; [| exact IH].
      apply AnswerType_eqb_eq in Euv. subst v.
      rewrite AnswerType_eqb_neq; [reflexivity |].
      intros ->. now rewrite AnswerType_eqb_refl in Etv.
Qed.

Lemma keys_add (t u : AnswerType) (c : list (AnswerType * nat)) :
  In u (map fst (counter_add t c)) <-> u = t \/ In u (map fst c).
Proof.
  induction c as [| [v n] c IH]; simpl.
  - intuition congruence.
  - destruct (AnswerType_eqb t v) eqn:Etv; simpl.
    + apply AnswerType_eqb_eq in Etv. subst v. intuition congruence.
    + rewrite IH. tauto.
Qed.

Lemma counter_add_ok (t : AnswerType) (c : list (AnswerType * nat)) :
  counter_ok c -> counter_ok (counter_add t c).
Proof.
  unfold counter_ok. induction c as [| [v n] c IH]; intros [Hnd Hpos]; simpl.
  - split; repeat constructor. intros [].
  - inversion Hnd as [| ? ? Hnotin Hnd']; subst.
    inversion Hpos as [| ? ? Hn Hpos']; subst.
    destruct (AnswerType_eqb t v) eqn:Etv; simpl.
    + split; [exact Hnd |]. constructor; [simpl in *; lia | exact Hpos'].
    + destruct (IH (conj Hnd' Hpos')) as [IH1 IH2].
      split; [| constructor; assumption].
      constructor; [| exact IH1].
      rewrite keys_add. intros [-> | H]; [| contradiction].
      now rewrite AnswerType_eqb_refl in Etv.
Qed.

Lemma count_of_in (c : list (AnswerType * nat)) (u : AnswerType) (n : nat) :
  counter_ok c -> In (u, n) c -> count_of c u = n.
Proof.
  unfold counter_ok. induction c as [| [v m] c IH]; intros [Hnd Hpos] Hin;
    [contradiction |].
  inversion Hnd as [| ? ? Hnotin Hnd']; subst.
  inversion Hpos; subst.
  simpl. destruct Hin as [H | Hin].
  - injection H as -> ->. now rewrite AnswerType_eqb_refl.
  - rewrite AnswerType_eqb_neq; [apply IH; auto |].
    intros ->. apply Hnotin. apply (in_map fst) in Hin. exact Hin.
Qed.

Lemma count_of_entry (c : list (AnswerType * nat)) (u : AnswerType) :
  (0 < count_of c u)%nat -> In (u, count_of c u) c.
Proof.
  induction c as [| [v m] c IH]; simpl; [lia |].
  destruct (AnswerType_eqb u v) eqn:E; intros Hpos.
  - apply AnswerType_eqb_eq in E. subst v. now left.
  - right. exact (IH Hpos).
Qed.

Lemma Counter_from (l : list AnswerType) :
  forall c : list (AnswerType * nat),
    counter_ok c ->
    let c' := fold_left (fun c t => counter_add t c) l c in
    counter_ok c'
    /\ forall u, count_of c' u
                 = (count_of c u + count_occ AnswerType_eq_dec l u)%nat.
Proof.
  induction l as [| t l IH]; intros c Hok; simpl.
  - split; [exact Hok | intros u; lia].
  - destruct (IH (counter_add t c) (counter_add_ok t c Hok)) as [H1 H2].
    split; [exact H1 |]. intros u. rewrite H2, count_of_add.
    destruct (AnswerType_eq_dec t u) as [-> | Hne].
    + rewrite AnswerType_eqb_refl. lia.
    + rewrite AnswerType_eqb_neq by congruence. lia.
Qed.

(** The entries of [Counter l] are the members of [l] with the number of
    their occurrences. *)
Lemma Counter_entries (l : list AnswerType) (u : AnswerType) (n : nat) :
  In (u, n) (Counter l) ->
  n = count_occ AnswerType_eq_dec l u /\ In u l.
Proof.
  intros Hin.
  destruct (Counter_from l []) as [[Hnd Hpos] Hcount].
  { split; constructor. }
  assert (Hn : n = count_occ AnswerType_eq_dec l u).
  { rewrite <- (count_of_in _ u n (conj Hnd Hpos) Hin).
    unfold Counter. rewrite Hcount. reflexivity. }
  split; [exact Hn |].
  apply (count_occ_In AnswerType_eq_dec).
  rewrite Forall_forall in Hpos. specialize (Hpos _ Hin). simpl in Hpos. lia.
Qed.

Lemma Counter_snoc (l : list AnswerType) (t : AnswerType) :
  Counter (l ++ [t]) = counter_add t (Counter l).
Proof. unfold Counter. now rewrite fold_left_app. Qed.

Lemma counter_add_not_nil (t : AnswerType) (c : list (AnswerType * nat)) :
  counter_add t c <> [].
Proof.
  destruct c as [| [v n] c]; simpl; [discriminate |].
  destruct (AnswerType_eqb t v); discriminate.
Qed.

(** [most_common_1] returns an entry with the largest count. *)
Lemma most_common_1_max (c : list (AnswerType * nat)) :
  c <> [] ->
  exists t n,
    most_common_1 c = Some (t, n) /\ In (t, n) c
    /\ Forall (fun p => (snd p <= n)%nat) c.
Proof.
  destruct c as [| x c]; [contradiction |]. intros _.
  assert (H : forall (c : list (AnswerType * nat)) (x : AnswerType * nat),
            let b := fold_left
                       (fun best y => if (snd best <? snd y)%nat then y else best)
                       c x in
            (b = x \/ In b c) /\ (snd x <= snd b)%nat
            /\ Forall (fun p => (snd p <= snd b)%nat) c).
  { clear. induction c as [| y c IH]; intros x; simpl.
    - repeat split; auto.
    - destruct (Nat.ltb_spec (snd x) (snd y)) as [Hlt | Hge].
      + destruct (IH y) as ([Hb | Hb] & Hle & Hall).
        * split; [right; left; now rewrite Hb |]. split; [lia |].
          constructor; auto.
        * split; [now right; right |]. split; [lia |]. constructor; auto.
      + destruct (IH x) as ([Hb | Hb] & Hle & Hall).
        * split; [now left |]. split; [lia |]. constructor; [lia | auto].
        * split; [now right; right |]. split; [lia |].
          constructor; [lia | auto]. }
  destruct (H c x) as (Hin & Hle & Hall). simpl most_common_1.
  destruct (fold_left _ c x) as [t n] eqn:E.
  exists t, n. split; [reflexivity |]. split.
  - destruct Hin as [<- | Hin]; [now left | now right].
  - constructor; assumption.
Qed.

Lemma count_occ_two (l : list AnswerType) (t u : AnswerType) :
  t <> u ->
  (count_occ AnswerType_eq_dec l t + count_occ AnswerType_eq_dec l u
   <= List.length l)%nat.
Proof.
  intros Hne. induction l as [| v l IH]; simpl; [lia |].
  destruct (AnswerType_eq_dec v t), (AnswerType_eq_dec v u); subst;
    try contradiction; lia.
Qed.

(** The type that the answers elect: one of them, with the largest number of
    occurrences. *)
Lemma vote (l : list AnswerType) (t0 : AnswerType) :
  exists t n,
    most_common_1 (Counter (l ++ [t0])) = Some (t, n)
    /\ In t (l ++ [t0])
    /\ forall u,
         (count_occ AnswerType_eq_dec (l ++ [t0]) u
          <= count_occ AnswerType_eq_dec (l ++ [t0]) t)%nat.
Proof.
  destruct (most_common_1_max (Counter (l ++ [t0]))) as (t & n & Hm & Hin & Hmax).
  { rewrite Counter_snoc. apply counter_add_not_nil. }
  exists t, n. split; [exact Hm |].
  destruct (Counter_entries _ _ _ Hin) as [Hn Hmem].
  split; [exact Hmem |].
  intros u. rewrite <- Hn.
  destruct (Counter_from (l ++ [t0]) []) as [Hok Hcount]; [split; constructor |].
  assert (Hc : count_of (Counter (l ++ [t0])) u
               = count_occ AnswerType_eq_dec (l ++ [t0]) u).
  { unfold Counter. rewrite Hcount. reflexivity. }
  destruct (Nat.eq_dec (count_of (Counter (l ++ [t0])) u) 0) as [Hz | Hnz];
    [lia |].
  assert (Hentry : In (u, count_of (Counter (l ++ [t0])) u) (Counter (l ++ [t0])))
    by (apply count_of_entry; lia).
  rewrite Forall_forall in Hmax. specialize (Hmax _ Hentry). simpl in Hmax. lia.
Qed.

End AnnotationFacts.

Module VoteFacts.

Import Annotation AnnotationFacts.

Lemma heads_shape {A : Type} (cols : list (list A)) (hs : list A)
  (ts : list (list A)) :
  heads cols = Some (hs, ts) ->
  List.length hs = List.length cols /\ List.length ts = List.length cols
  /\ map (@List.length A) cols = map (fun col => S (List.length col)) ts.
Proof.
  revert hs ts. induction cols as [| col cols IH]; intros hs ts; simpl.
  - intros H. injection H as <- <-. auto.
  - destruct col as [| x col]; [discriminate |].
    destruct (heads cols) as [[hs' ts'] |]; [| discriminate].
    intros H. injection H as <- <-.
    destruct (IH hs' ts' eq_refl) as (H1 & H2 & H3).
    simpl. rewrite H1, H2, H3. auto.
Qed.

Lemma heads_none {A : Type} (cols : list (list A)) :
  heads cols = None -> In 0%nat (map (@List.length A) cols).
Proof.
  induction cols as [| col cols IH]; simpl; [discriminate |].
  destruct col as [| x col]; [now left |].
  destruct (heads cols) as [[hs' ts'] |]; [discriminate |].
  intros _. right. now apply IH.
Qed.

Lemma min_all_zero (n : nat) (lens : list nat) :
  In 0%nat lens -> fold_right Nat.min n lens = 0%nat.
Proof.
  induction lens as [| m lens IH]; simpl; [contradiction |].
  intros [-> | H]; [reflexivity |]. rewrite (IH H). apply Nat.min_0_r.
Qed.

Lemma min_all_succ (n : nat) (lens : list nat) :
  fold_right Nat.min (S n) (map S lens) = S (fold_right Nat.min n lens).
Proof.
  induction lens as [| m lens IH]; simpl; [reflexivity |].
  rewrite IH. reflexivity.
Qed.

(** [zip] yields as many rows as its shortest argument has elements. *)
Lemma zip_length {A B : Type} (questions : list A) :
  forall cols : list (list B),
    List.length (zip questions cols)
    = fold_right Nat.min (List.length questions) (map (@List.length B) cols).
Proof.
  induction questions as [| q questions IH]; intros cols; simpl.
  - induction cols as [| col cols IHc]; simpl; [reflexivity |].
    rewrite <- IHc. now rewrite Nat.min_0_r.
  - destruct (heads cols) as [[hs ts] |] eqn:E.
    + destruct (heads_shape cols hs ts E) as (_ & _ & Hlen).
      rewrite Hlen.
      rewrite <- (map_map (@List.length B) S), min_all_succ.
      simpl. now rewrite IH.
    + simpl. symmetry. apply min_all_zero. now apply heads_none.
Qed.

(** Every row of [zip] holds one element of each of the zipped lists. *)
Lemma zip_rows {A B : Type} (questions : list A) :
  forall cols : list (list B),
    Forall (fun row => List.length (snd row) = List.length cols)
      (zip questions cols).
Proof.
  induction questions as [| q questions IH]; intros cols; simpl;
    [constructor |].
  destruct (heads cols) as [[hs ts] |] eqn:E; [| constructor].
  destruct (heads_shape cols hs ts E) as (H1 & H2 & _).
  constructor; [exact H1 |]. rewrite <- H2. apply IH.
Qed.

Section WithUtils.

Variable is_number : text -> bool.

Lemma annotate_answers_run
  (norm_passage norm_question : text) (question_answers : list AnswerItem) :
  forall (answer_types : list AnswerType) (answer_type : option AnswerType),
    let types :=
      map (fun a => get_answer_type is_number norm_passage norm_question
                      (a_input_text a) (a_span_start a) (a_span_end a))
        question_answers in
    exists final,
      annotate_answers is_number norm_passage norm_question question_answers
        answer_types answer_type
      = inr (map (fun a => fst (annotate_answer_with_answer_type is_number
                                  norm_passage norm_question a))
               question_answers,
             answer_types ++ types, final)
      /\ match question_answers with
         | [] => final = answer_type
         | _ :: _ =>
             exists t n,
               final = Some t
               /\ most_common_1 (Counter (answer_types ++ types)) = Some (t, n)
         end.
Proof.
  induction question_answers as [| a rest IH]; intros acc cur; simpl.
  - exists cur. rewrite app_nil_r. auto.
  - set (t := get_answer_type is_number norm_passage norm_question
                (a_input_text a) (a_span_start a) (a_span_end a)).
    destruct (vote acc t) as (w & n & Hm & _ & _). rewrite Hm.
    destruct (IH (acc ++ [t]) (Some w)) as (final & Hrun & Hfinal).
    rewrite Hrun. rewrite <- app_assoc in *. simpl app in *.
    exists final. split; [reflexivity |].
    destruct rest as [| b rest'].
    + subst final. exists w, n. split; [reflexivity | exact Hm].
    + exact Hfinal.
Qed.

(** X19: a question with at least one answer is annotated with one of the
    types of its answers, one that no other type outnumbers among them; every
    answer is annotated with its own type. *)
Theorem annotate_question_most_common
  (norm_passage : text) (question_item : QuestionItem)
  (question_answers : list AnswerItem) :
  question_answers <> [] ->
  let norm_question := normalize_text (q_input_text question_item) in
  let types :=
    map (fun a => get_answer_type is_number norm_passage norm_question
                    (a_input_text a) (a_span_start a) (a_span_end a))
      question_answers in
  exists t,
    annotate_question_with_answer_type is_number norm_passage question_item
      question_answers
    = inr ({| q_input_text := q_input_text question_item;
              q_answer_type := Some (AnswerType_str t) |},
           map (fun a =>
                  {| a_input_text := a_input_text a;
                     a_span_start := a_span_start a;
                     a_span_end := a_span_end a;
                     a_answer_type :=
                       Some (AnswerType_str
                               (get_answer_type is_number norm_passage
                                  norm_question (a_input_text a)
                                  (a_span_start a) (a_span_end a))) |})
             question_answers,
           t)
    /\ In t types
    /\ forall u,
         (count_occ AnswerType_eq_dec types u
          <= count_occ AnswerType_eq_dec types t)%nat.
Proof.
  intros Hne norm_question types.
  destruct (annotate_answers_run norm_passage norm_question question_answers
              [] None) as (final & Hrun & Hfinal).
  destruct question_answers as [| a rest]; [contradiction |].
  destruct Hfinal as (t & n & -> & Hm).
  exists t. unfold annotate_question_with_answer_type.
  fold norm_question. rewrite Hrun. split; [reflexivity |].
  assert (Hm' : most_common_1 (Counter types) = Some (t, n)) by exact Hm.
  clear Hm. clearbody types.
  (* the last answer closes the vote *)
  destruct (@exists_last _ types) as (l & t0 & Hsplit);
    [intros ->; discriminate |].
  destruct (vote l t0) as (w & m & Hw & Hin & Hmax).
  rewrite <- Hsplit in Hw, Hin, Hmax.
  rewrite Hm' in Hw. injection Hw as <- <-. auto.
Qed.

(** X20: without answers the local [answer_type] is never bound, and the
    call fails with an [UnboundLocalError]; the function then leaves the
    question without its annotation. *)
Theorem annotate_question_no_answers
  (norm_passage : text) (question_item : QuestionItem)
  (question_answers : list AnswerItem) :
  annotate_question_with_answer_type is_number norm_passage question_item
    question_answers = inl UnboundLocalError
  <-> question_answers = [].
Proof.
  destruct (annotate_answers_run norm_passage
              (normalize_text (q_input_text question_item)) question_answers
              [] None) as (final & Hrun & Hfinal).
  unfold annotate_question_with_answer_type. rewrite Hrun.
  destruct question_answers as [| a rest].
  - subst final. split; reflexivity.
  - destruct Hfinal as (t & n & -> & _). split; discriminate.
Qed.

Lemma annotate_turns_run
  (norm_passage : text) (turns : list (QuestionItem * list AnswerItem)) :
  Forall (fun row => snd row <> []) turns ->
  exists done,
    annotate_turns is_number norm_passage turns = inr done
    /\ List.length done = List.length turns
    /\ Forall (fun row =>
                 q_answer_type (fst row) <> None
                 /\ Forall (fun a => a_answer_type a <> None) (snd row))
         done.
Proof.
  induction 1 as [| [q qa] turns Hrow _ IH]; simpl.
  - exists []. auto.
  - destruct (annotate_answers_run norm_passage
                (normalize_text (q_input_text q)) qa [] None)
      as (final & Hrun & Hfinal).
    unfold annotate_question_with_answer_type. rewrite Hrun.
    destruct qa as [| a rest]; [now contradiction Hrow |].
    destruct Hfinal as (t & n & -> & _).
    destruct IH as (done & -> & Hlen & Hall).
    eexists. split; [reflexivity |]. split; [simpl; now rewrite Hlen |].
    constructor; [| exact Hall]. simpl. split; [discriminate |].
    constructor; [discriminate |].
    apply Forall_forall. intros x Hx. apply in_map_iff in Hx.
    destruct Hx as (y & <- & _). discriminate.
Qed.

(** X21: the annotation of a dataset never fails: [zip] gives every question
    at least the answer of the main annotator.  For each story it annotates
    as many turns as the shortest of the questions, the answers and the
    lists of additional answers, and every annotated question and answer
    carries a type. *)
Theorem annotate_with_answer_type_total
  (coqa_data : list Item) (use_additional_answers : bool) :
  exists annotated,
    annotate_with_answer_type is_number coqa_data use_additional_answers
    = inr annotated
    /\ Forall2
         (fun item turns =>
            List.length turns
            = fold_right Nat.min (List.length (questions item))
                (List.length (answers item)
                 :: map (fun kv => List.length (snd kv))
                      (additional_of use_additional_answers item))
            /\ Forall (fun row =>
                         q_answer_type (fst row) <> None
                         /\ Forall (fun a => a_answer_type a <> None)
                              (snd row))
                 turns)
         coqa_data annotated.
Proof.
  induction coqa_data as [| item data IH]; simpl.
  - exists []. split; [reflexivity | constructor].
  - destruct IH as (done & -> & Hall).
    set (cols := answers item
                 :: map snd (additional_of use_additional_answers item)).
    destruct (annotate_turns_run (normalize_text (story item))
                (zip (questions item) cols)) as (turns & Hrun & Hlen & Hrows).
    { eapply Forall_impl; [| apply zip_rows].
      intros row Hrow Hnil. cbv beta in Hrow. rewrite Hnil in Hrow.
      discriminate. }
    unfold annotate_item. fold cols. rewrite Hrun.
    eexists. split; [reflexivity |].
    constructor; [| exact Hall]. split; [| exact Hrows].
    rewrite Hlen, zip_length. subst cols. simpl. now rewrite map_map.
Qed.

End WithUtils.

End VoteFacts.

(** ** Averages of the answer F1 *)

Module EvaluationFacts.

Import Torch Annotation Evaluation NumFacts TorchFacts.

Lemma filter_le {A : Type} (f : A -> bool) (l : list A) :
  (List.length (filter f l) <= List.length l)%nat.
Proof.
  induction l as [| x l IH]; simpl; [lia |].
  destruct (f x); simpl; lia.
Qed.

Lemma filter_none {A : Type} (f : A -> bool) (l : list A) :
  List.length (filter f l) = 0%nat <-> forall x, In x l -> f x = false.
Proof.
  induction l as [| x l IH]; simpl.
  - split; [intros _ y [] | reflexivity].
  - destruct (f x) eqn:E; simpl.
    + split; [discriminate |]. intros H.
      specialize (H x (or_introl eq_refl)). congruence.
    + rewrite IH. split.
      * intros H y [<- | Hy]; auto.
      * intros H y Hy. apply H. now right.
Qed.

Lemma filter_all {A : Type} (f : A -> bool) (l : list A) :
  List.length (filter f l) = List.length l <-> forall x, In x l -> f x = true.
Proof.
  induction l as [| x l IH]; simpl.
  - split; [intros _ y [] | reflexivity].
  - pose proof (filter_le f l) as Hle.
    destruct (f x) eqn:E; simpl.
    + split.
      * intros H y [<- | Hy]; [exact E |]. apply IH; [lia | exact Hy].
      * intros H. f_equal. apply IH. intros y Hy. apply H. now right.
    + split; [lia |]. intros H.
      specialize (H x (or_introl eq_refl)). congruence.
Qed.

Lemma share_bounds (k n : nat) :
  (0 < n)%nat -> (k <= n)%nat ->
  let ratio := inject_Z (Z.of_nat k) / inject_Z (Z.of_nat n) in
  0 <= ratio /\ ratio <= 1
  /\ (ratio == 0 <-> k = 0%nat) /\ (ratio == 1 <-> k = n).
Proof.
  intros Hn Hk. cbv zeta.
  assert (Hinj : forall i j : nat,
            inject_Z (Z.of_nat i) == inject_Z (Z.of_nat j) -> i = j).
  { intros i j H. unfold Qeq in H. simpl in H. lia. }
  assert (Hn' : 0 < inject_Z (Z.of_nat n)).
  { replace 0 with (inject_Z 0) by reflexivity. rewrite <- Zlt_Qlt. lia. }
  assert (Hk0 : 0 <= inject_Z (Z.of_nat k)).
  { replace 0 with (inject_Z 0) by reflexivity. rewrite <- Zle_Qle. lia. }
  assert (Hkn : inject_Z (Z.of_nat k) <= inject_Z (Z.of_nat n)).
  { rewrite <- Zle_Qle. lia. }
  assert (Hmul : inject_Z (Z.of_nat k)
                 == inject_Z (Z.of_nat k) / inject_Z (Z.of_nat n)
                    * inject_Z (Z.of_nat n)).
  { field. intros H. rewrite H in Hn'. now apply Qlt_irrefl in Hn'. }
  split; [apply Qle_shift_div_l; [exact Hn' | now rewrite Qmult_0_l] |].
  split; [apply Qle_shift_div_r; [exact Hn' | now rewrite Qmult_1_l] |].
  split; split.
  - intros H. rewrite H, Qmult_0_l in Hmul. now apply (Hinj k 0%nat).
  - intros ->. unfold Qdiv. apply Qmult_0_l.
  - intros H. rewrite H, Qmult_1_l in Hmul. now apply Hinj.
  - intros ->. apply Qmult_inv_r.
    intros H. rewrite H in Hn'. now apply Qlt_irrefl in Hn'.
Qed.

(** X22: on a dataset that is not empty [compute_avg_f1] returns the mean of
    the selected examples with their share of the dataset, a number between
    zero and one: zero exactly when the filter selects nothing, and the mean
    is then [nan]; one exactly when it selects every example. *)
Theorem compute_avg_f1_share
  (predictions : list Example) (f : Example -> bool) :
  predictions <> [] ->
  exists ratio,
    compute_avg_f1 predictions (Some f)
    = Ok (np_mean (map answer_f1 (filter f predictions)), ratio)
    /\ 0 <= ratio <= 1
    /\ (ratio == 0 <-> forall ex, In ex predictions -> f ex = false)
    /\ (ratio == 0 -> np_mean (map answer_f1 (filter f predictions)) = NaN)
    /\ (ratio == 1 <-> forall ex, In ex predictions -> f ex = true).
Proof.
  intros Hne.
  assert (Hn : (0 < List.length predictions)%nat).
  { destruct predictions; [contradiction | simpl; lia]. }
  destruct (share_bounds (List.length (filter f predictions))
              (List.length predictions) Hn (filter_le f predictions))
    as (H0 & H1 & Hzero & Hone).
  unfold compute_avg_f1, py_truediv, dataset_filter.
  destruct (Nat.eqb_spec (List.length predictions) 0) as [E | _]; [lia |].
  eexists. split; [reflexivity |].
  split; [split; [exact H0 | exact H1] |].
  split; [rewrite Hzero; apply filter_none |].
  split; [| rewrite Hone; apply filter_all].
  intros Hr. apply Hzero in Hr.
  destruct (filter f predictions); [reflexivity | discriminate].
Qed.

(** X23: [compute_avg_f1] fails on an empty dataset, after the mean has been
    taken, with the [ZeroDivisionError] of the share, and on no other. *)
Theorem compute_avg_f1_empty
  (predictions : list Example) (filter_fn : option (Example -> bool)) :
  (predictions = []
   <-> compute_avg_f1 predictions filter_fn = Raise ZeroDivisionError)
  /\ (predictions <> [] -> returns (compute_avg_f1 predictions filter_fn)).
Proof.
  unfold compute_avg_f1, py_truediv.
  destruct predictions as [| ex predictions]; simpl.
  - split; [split; reflexivity | intros H; contradiction].
  - split; [split; discriminate | intros _; exact I].
Qed.





End EvaluationFacts.

(** ** Instances of the further properties *)

Module MoreInstances.

Import NumFacts Torch Losses LossObjects Pipeline Run LossNotions Examples.
Import Annotation Evaluation MoreExamples.

Lemma loss2_returns (st : TrainState) (data : Targets) :
  In data dataloader4 ->
  exists l inner,
    forward (K := rational_kernels) loss2 (model2 st data) data
    = Ok (Scalar l, inner).
Proof.
  intros Hin.
  assert (E : data = targets2).
  { simpl in Hin. decompose [or] Hin; auto; contradiction. }
  subst data. destruct Instances.forward2 as (c & r & g & H).
  eexists; eexists. exact H.
Qed.

Lemma rational_bce_finite (x y : ext) :
  finite x -> finite y ->
  finite (bce_with_logits_token (Kernels := rational_kernels) x y).
Proof.
  destruct x as [x | | |], y as [y | | |]; intros Hx Hy; try contradiction.
  simpl. destruct (Qle_bool 0 x); exact I.
Qed.

Lemma train_counters_witness :
  exists s,
    train model2 dataloader4 (forward (K := rational_kernels) loss2) config2
    = Ok s
    /\ step s = 8%Z
    /\ lr_scheduler_steps (state s) = 8%nat
    /\ teacher_force_steps (state s) = 8%nat
    /\ clip_calls (state s) = 8%nat
    /\ (list_sum (optimizer_steps (state s)) + accumulated (state s))%nat
       = 8%nat.
Proof.
  assert (H1 : Config.accumulation_steps config2 <> 0%Z) by discriminate.
  assert (H2 : Config.log_interval config2 <> 0%Z) by discriminate.
  assert (H3 : Config.checkpoint_interval config2 <> 0%Z) by discriminate.
  destruct (RunFacts.train_counters model2 dataloader4
              (forward (K := rational_kernels) loss2) config2 loss2_returns
              H1 H2 H3) as (s & Hrun & H).
  exists s. split; [exact Hrun | exact H].
Defined.

Lemma train_cadence_witness :
  exists s,
    train model2 dataloader4 (forward (K := rational_kernels) loss2) config2
    = Ok s
    /\ evaluations s = 4%nat
    /\ checkpoint_counter s = 2%nat.
Proof.
  assert (H1 : Config.accumulation_steps config2 <> 0%Z) by discriminate.
  assert (H2 : (0 < Config.log_interval config2)%Z) by reflexivity.
  assert (H3 : (0 < Config.checkpoint_interval config2)%Z) by reflexivity.
  destruct (RunFacts.train_cadence model2 dataloader4
              (forward (K := rational_kernels) loss2) config2 7 loss2_returns
              H1 H2 H3 eq_refl) as (s & Hrun & H).
  exists s. split; [exact Hrun | exact H].
Defined.


Lemma train_zero_interval_witness :
  train model2 dataloader4 (forward (K := rational_kernels) loss2)
    (config_with "encoder_decoder" 0)
  = Raise ZeroDivisionError.
Proof.
  destruct Instances.forward2 as (c & r & g & H).
  refine (RunFacts.train_zero_interval model2 targets2
            [targets2; targets2; targets2]
            (forward (K := rational_kernels) loss2)
            (config_with "encoder_decoder" 0) _ _ _ H _).
  - reflexivity.
  - right. left. reflexivity.
Defined.


Lemma make_scheduler_warmup_witness :
  exists warmup_steps,
    (0 <= warmup_steps <= 8)%Z
    /\ make_scheduler get_scheduler2 ("none"%string, 0%Z, 0%Z) 4 config2
       = Ok ("linear"%string, warmup_steps, 8%Z).
Proof.
  destruct (BuildFacts.make_scheduler_warmup get_scheduler2
              ("none"%string, 0%Z, 0%Z) 4 config2 (1 # 10) eq_refl)
    as (w & Hw & H); try (vm_compute; discriminate).
  exists w. split; [exact Hw | exact H].
Defined.

Lemma apply_reduction_total_witness :
  exists t,
    apply_reduction [Fin 1; Fin (1 # 2)] "mean" = Ok t /\ tensor_finite t.
Proof.
  refine (proj1 (LossEdgeFacts.apply_reduction_total [Fin 1; Fin (1 # 2)]
                   "mean" _ _)).
  - right. left. reflexivity.
  - repeat constructor.
Defined.

Lemma rationale_loss_all_excluded_witness :
  rationale_loss (K := rational_kernels) (encoder_rationale_logits outputs2)
    (rationale_labels targets2) (passage_mask targets2) 1 "mean" None
  = Ok (Scalar (Fin 0)).
Proof.
  refine (proj1 (LossEdgeFacts.rationale_loss_all_excluded
                   (K := rational_kernels) (encoder_rationale_logits outputs2)
                   (rationale_labels targets2) (passage_mask targets2) 1 None
                   eq_refl _)).
  repeat constructor.
Defined.

Lemma mask_of_all_examples_witness :
  rationale_loss (K := rational_kernels) (encoder_rationale_logits outputs2)
    (rationale_labels targets2) (passage_mask targets2) 4 "mean"
    (Some [true; true])
  = rationale_loss (K := rational_kernels) (encoder_rationale_logits outputs2)
      (rationale_labels targets2) (passage_mask targets2) 4 "mean" None
  /\ generative_loss (K := rational_kernels) (logits outputs2)
       (labels targets2) "mean" (Some [true; true])
     = generative_loss (K := rational_kernels) (logits outputs2)
         (labels targets2) "mean" None.
Proof.
  apply (LossEdgeFacts.mask_of_all_examples (K := rational_kernels)
           (encoder_rationale_logits outputs2) (rationale_labels targets2)
           (passage_mask targets2) 4 (logits outputs2) (labels targets2)
           "mean" [true; true]).
  - repeat constructor.
  - reflexivity.
  - reflexivity.
  - reflexivity.
Defined.


Lemma rationale_loss_ignores_outside_witness :
  eqv (rationale_sample (K := rational_kernels) rationale_logits1
         rationale_labels1 passage_mask1)
      (rationale_sample (K := rational_kernels) rationale_logits1'
         rationale_labels1 passage_mask1).
Proof.
  refine (proj2 (LossEdgeFacts.rationale_loss_ignores_outside
                   (K := rational_kernels) rational_bce_finite
                   rationale_logits1 rationale_logits1' rationale_labels1
                   passage_mask1 _ _ _)).
  - repeat constructor.
  - reflexivity.
  - repeat (constructor;
            [exact I | exact I | exact I
            | intros H; first [ reflexivity
                              | exfalso; apply H; reflexivity ] |]).
    constructor.
Defined.

Lemma rationale_loss_empty_passage_witness :
  valid_rationale 4 (map2 emul rationale_labels1 no_passage) = true
  /\ Forall (fun w => eqv w (Fin 0))
       (rationale_weights (map2 emul rationale_labels1 no_passage) no_passage)
  /\ eqv (rationale_sample (K := rational_kernels) rationale_logits1
            rationale_labels1 no_passage) (Fin 0).
Proof.
  apply (LossEdgeFacts.rationale_loss_empty_passage (K := rational_kernels)
           rational_bce_finite rationale_logits1 rationale_labels1 no_passage
           4).
  - repeat constructor.
  - repeat constructor.
  - repeat (constructor; [reflexivity |]). constructor.
  - reflexivity.
  - lia.
Defined.

Lemma generative_sample_average_witness :
  exists n : nat,
    (0 < n)%nat
    /\ n = List.length
             (filter (fun t => negb (t =? IGNORE_INDEX)%Z) [1; -100; 2]%Z)
    /\ clamp_min _EPSILON (n_tokens [1; -100; 2]%Z) = of_nat n
    /\ generative_sample (K := rational_kernels)
         [ints [1; 3; 0]; ints [0; 0; 0]; ints [2; 1; 1]]%Z [1; -100; 2]%Z
       = ediv (vsum (map2 (cross_entropy_at (K := rational_kernels))
                       [ints [1; 3; 0]; ints [0; 0; 0]; ints [2; 1; 1]]%Z
                       [1; -100; 2]%Z))
           (of_nat n).
Proof.
  apply (LossEdgeFacts.generative_sample_average (K := rational_kernels)).
  left. discriminate.
Defined.


Lemma find_answer_span_first_witness :
  exists n,
    find_answer_span Ascii.eqb passage1 (str "the mat")
    = Some (Z.of_nat n, Z.of_nat (n + 7))
    /\ firstn 7 (skipn n passage1) = str "the mat"
    /\ forall k, (k < n)%nat -> firstn 7 (skipn k passage1) <> str "the mat".
Proof.
  pose proof (AnnotationFacts.find_answer_span_first Ascii.eqb Ascii.eqb_eq
                passage1 (str "the mat")) as H.
  destruct (find_answer_span Ascii.eqb passage1 (str "the mat"))
    as [[start_idx end_idx] |] eqn:E.
  - destruct H as (n & -> & -> & Hat & Hfirst).
    exists n. split; [reflexivity |]. split; [exact Hat | exact Hfirst].
  - discriminate E.
Defined.

Lemma normalize_text_normal_form_witness :
  normalize_text (normalize_text (str "  On the MAT. "))
  = normalize_text (str "  On the MAT. ").
Proof.
  refine (proj1 (AnnotationFacts.normalize_text_normal_form
                   (str "  On the MAT. ") _)).
  repeat constructor.
Defined.

Lemma punctuation_answer_is_span_witness :
  normalize_text (str "?! ...") = []
  /\ get_answer_type is_integer passage1 (str "who") (str "?! ...") 3 9
     = SPAN.
Proof.
  apply (AnnotationFacts.punctuation_answer_is_span is_integer).
  - repeat constructor.
  - intros [H _]. discriminate H.
Defined.

Lemma get_answer_type_order_witness :
  get_answer_type is_integer passage1 (str "where did the cat sit")
    (str "On the mat.") 12 22 = SPAN
  <-> ~ (12 = -1 /\ 22 = -1)%Z
      /\ ~ (normalize_text (str "On the mat.") = str "yes"
            \/ normalize_text (str "On the mat.") = str "no")
      /\ exists k,
           firstn (List.length (normalize_text (str "On the mat.")))
             (skipn k passage1)
           = normalize_text (str "On the mat.").
Proof.
  refine (proj2 (proj2 (AnnotationFacts.get_answer_type_order is_integer
                          passage1 (str "where did the cat sit")
                          (str "On the mat.") 12 22 _))).
  repeat constructor.
Defined.

Lemma annotate_question_most_common_witness :
  exists items t,
    annotate_question_with_answer_type is_integer passage1 question1 answers1
    = inr ({| q_input_text := q_input_text question1;
              q_answer_type := Some (AnswerType_str t) |}, items, t)
    /\ In t [SPAN; FLUENCY; SPAN]
    /\ forall u,
         (count_occ AnswerType_eq_dec [SPAN; FLUENCY; SPAN] u
          <= count_occ AnswerType_eq_dec [SPAN; FLUENCY; SPAN] t)%nat.
Proof.
  destruct (VoteFacts.annotate_question_most_common is_integer passage1
              question1 answers1) as (t & Hrun & Hin & Hmax);
    [discriminate |].
  eexists; exists t. split; [exact Hrun |]. split; [exact Hin | exact Hmax].
Defined.

Lemma compute_avg_f1_share_witness :
  exists ratio,
    compute_avg_f1 predictions4 (Some is_span)
    = Ok (np_mean (map answer_f1 (filter is_span predictions4)), ratio)
    /\ 0 <= ratio <= 1.
Proof.
  destruct (EvaluationFacts.compute_avg_f1_share predictions4 is_span)
    as (ratio & Hrun & Hratio & _); [discriminate |].
  exists ratio. split; [exact Hrun | exact Hratio].
Defined.



End MoreInstances.
